(** * StringAnalyzerService: a shallow embedding of [main.go]

    The service analyses strings (length, palindrome status, distinct
    characters, word count, SHA-256 digest, character frequencies), stores
    the analysed records in a map keyed by the digest and filters them,
    either by structured parameters or through a small natural-language
    translator.

    Go strings are byte sequences: they are modelled as [string], one
    [ascii] per byte.  Runes and Go [int]s are [Z].  The map types of the
    program are [gmap]s. *)

From Equations Require Import Equations.
From Stdlib Require Import ZArith Ascii String List Lia Permutation Sorted.
From stdpp Require Import base gmap strings list fin_maps.

Local Open Scope Z_scope.

(** ** Bytes and runes *)

Abbreviation rune := Z (only parsing).

Definition byteZ (c : ascii) : Z := Z.of_N (N_of_ascii c).
Definition zbyte (z : Z) : ascii := ascii_of_N (Z.to_N (z mod 256)).

(** [len(s)]: the number of bytes of a Go string. *)
Definition len (s : string) : Z := Z.of_nat (String.length s).

(** [s[i]] for an index the caller has checked to be in range. *)
Fixpoint byteAt (s : string) (i : nat) : Z :=
  match s, i with
  | EmptyString, _ => 0
  | String c _, O => byteZ c
  | String _ t, S i' => byteAt t i'
  end.

(** [s[n:]], clipped at the end of the string. *)
Fixpoint skip (s : string) (n : nat) {struct s} : string :=
  match s with
  | EmptyString => s
  | String _ t => match n with
                  | O => s
                  | S n' => skip t n'
                  end
  end.

Fixpoint concatStrings (l : list string) : string :=
  match l with
  | [] => EmptyString
  | s :: t => s +:+ concatStrings t
  end.

(** ** Package [unicode/utf8] *)

Module utf8.

Definition RuneError : rune := 0xFFFD.
Definition RuneSelf : Z := 0x80.
Definition MaxRune : rune := 0x10FFFF.
Definition surrogateMin : rune := 0xD800.
Definition surrogateMax : rune := 0xDFFF.

Definition tx : Z := 0x80.
Definition t2 : Z := 0xC0.
Definition t3 : Z := 0xE0.
Definition t4 : Z := 0xF0.
Definition maskx : Z := 0x3F.
Definition mask2 : Z := 0x1F.
Definition mask3 : Z := 0x0F.
Definition mask4 : Z := 0x07.
Definition rune1Max : Z := 0x7F.
Definition rune2Max : Z := 0x7FF.
Definition rune3Max : Z := 0xFFFF.
Definition locb : Z := 0x80.
Definition hicb : Z := 0xBF.

(** The table [first] together with [acceptRanges]: for a leading byte, the
    length of the sequence and the range accepted for the second byte;
    [None] for the bytes that cannot start a multi-byte sequence. *)
Definition first (s0 : Z) : option (nat * Z * Z) :=
  if s0 <? 0xC2 then None
  else if s0 <=? 0xDF then Some (2%nat, locb, hicb)
  else if s0 =? 0xE0 then Some (3%nat, 0xA0, hicb)
  else if s0 <=? 0xEC then Some (3%nat, locb, hicb)
  else if s0 =? 0xED then Some (3%nat, locb, 0x9F)
  else if s0 <=? 0xEF then Some (3%nat, locb, hicb)
  else if s0 =? 0xF0 then Some (4%nat, 0x90, hicb)
  else if s0 <=? 0xF3 then Some (4%nat, locb, hicb)
  else if s0 =? 0xF4 then Some (4%nat, locb, 0x8F)
  else None.

(** [DecodeRuneInString]: the first rune of [s] and its width in bytes. *)
Definition DecodeRuneInString (s : string) : rune * nat :=
  match s with
  | EmptyString => (RuneError, 0%nat)
  | String c0 _ =>
    let s0 := byteZ c0 in
    if s0 <? RuneSelf then (s0, 1%nat)
    else
      match first s0 with
      | None => (RuneError, 1%nat)
      | Some (sz, lo, hi) =>
        if (String.length s <? sz)%nat then (RuneError, 1%nat)
        else
          let s1 := byteAt s 1 in
          if (s1 <? lo) || (hi <? s1) then (RuneError, 1%nat)
          else if (sz <=? 2)%nat then
            (Z.lor (Z.shiftl (Z.land s0 mask2) 6) (Z.land s1 maskx), 2%nat)
          else
            let s2 := byteAt s 2 in
            if (s2 <? locb) || (hicb <? s2) then (RuneError, 1%nat)
            else if (sz <=? 3)%nat then
              (Z.lor (Z.lor (Z.shiftl (Z.land s0 mask3) 12)
                            (Z.shiftl (Z.land s1 maskx) 6))
                     (Z.land s2 maskx), 3%nat)
            else
              let s3 := byteAt s 3 in
              if (s3 <? locb) || (hicb <? s3) then (RuneError, 1%nat)
              else
                (Z.lor (Z.lor (Z.lor (Z.shiftl (Z.land s0 mask4) 18)
                                     (Z.shiftl (Z.land s1 maskx) 12))
                              (Z.shiftl (Z.land s2 maskx) 6))
                       (Z.land s3 maskx), 4%nat)
      end
  end.

(** [string(r)] / [AppendRune]: the UTF-8 encoding of a rune; a rune that
    is out of range or a surrogate half is encoded as [RuneError]. *)
Definition encode3 (r : rune) : string :=
  String (zbyte (Z.lor t3 (Z.shiftr r 12)))
    (String (zbyte (Z.lor tx (Z.land (Z.shiftr r 6) maskx)))
       (String (zbyte (Z.lor tx (Z.land r maskx))) EmptyString)).

Definition EncodeRune (r : rune) : string :=
  if (0 <=? r) && (r <=? rune1Max) then String (zbyte r) EmptyString
  else if (0 <=? r) && (r <=? rune2Max) then
    String (zbyte (Z.lor t2 (Z.shiftr r 6)))
      (String (zbyte (Z.lor tx (Z.land r maskx))) EmptyString)
  else if (r <? 0) || (MaxRune <? r)
          || ((surrogateMin <=? r) && (r <=? surrogateMax)) then
    encode3 RuneError
  else if r <=? rune3Max then encode3 r
  else
    String (zbyte (Z.lor t4 (Z.shiftr r 18)))
      (String (zbyte (Z.lor tx (Z.land (Z.shiftr r 12) maskx)))
         (String (zbyte (Z.lor tx (Z.land (Z.shiftr r 6) maskx)))
            (String (zbyte (Z.lor tx (Z.land r maskx))) EmptyString))).

End utf8.

(** The [range] clause over a string, and the conversion [[]rune(s)]: the
    runes of [s] in order, an invalid byte giving [RuneError] and advancing
    by one byte. *)
Fixpoint runes (s : string) : list rune :=
  match s with
  | EmptyString => []
  | String _ t =>
    let (r, w) := utf8.DecodeRuneInString s in
    r :: runes (skip t (Nat.pred w))
  end.

(** [utf8.RuneCountInString]. *)
Definition RuneCountInString (s : string) : Z := Z.of_nat (length (runes s)).

(** Every rune together with the bytes it was decoded from. *)
Fixpoint chunks (s : string) : list (rune * string) :=
  match s with
  | EmptyString => []
  | String _ t =>
    let (r, w) := utf8.DecodeRuneInString s in
    (r, String.substring 0 w s) :: chunks (skip t (Nat.pred w))
  end.

(** ** Package [unicode] *)

Module unicode.

Definition MaxASCII : rune := 0x7F.
Definition MaxLatin1 : rune := 0xFF.

(** [IsSpace]: the Latin-1 cases, then the table [White_Space]. *)
Definition IsSpace (r : rune) : bool :=
  if (0 <=? r) && (r <=? MaxLatin1) then
    (r =? 9) || (r =? 10) || (r =? 11) || (r =? 12) || (r =? 13)
    || (r =? 32) || (r =? 0x85) || (r =? 0xA0)
  else
    (r =? 0x1680) || ((0x2000 <=? r) && (r <=? 0x200A))
    || (r =? 0x2028) || (r =? 0x2029) || (r =? 0x202F)
    || (r =? 0x205F) || (r =? 0x3000).

End unicode.

(** ** Package [crypto/sha256] *)

Module sha256.

Definition w32 (x : Z) : Z := x mod 2 ^ 32.
Definition add32 (x y : Z) : Z := w32 (x + y).
Definition rotr (n x : Z) : Z := w32 (Z.lor (Z.shiftr x n) (Z.shiftl x (32 - n))).
Definition not32 (x : Z) : Z := Z.lxor x 0xFFFFFFFF.

Definition Ch (x y z : Z) : Z := Z.lxor (Z.land x y) (Z.land (not32 x) z).
Definition Maj (x y z : Z) : Z :=
  Z.lxor (Z.lxor (Z.land x y) (Z.land x z)) (Z.land y z).
Definition bsig0 (x : Z) : Z := Z.lxor (Z.lxor (rotr 2 x) (rotr 13 x)) (rotr 22 x).
Definition bsig1 (x : Z) : Z := Z.lxor (Z.lxor (rotr 6 x) (rotr 11 x)) (rotr 25 x).
Definition ssig0 (x : Z) : Z := Z.lxor (Z.lxor (rotr 7 x) (rotr 18 x)) (Z.shiftr x 3).
Definition ssig1 (x : Z) : Z := Z.lxor (Z.lxor (rotr 17 x) (rotr 19 x)) (Z.shiftr x 10).

(** The first sixty-four primes. *)
Definition isPrime (p : Z) : bool :=
  forallb (fun d => negb (p mod Z.of_nat d =? 0)) (seq 2 (Z.to_nat p - 2)).

Definition primes : list Z :=
  Eval vm_compute in filter (fun p => isPrime p = true) (map Z.of_nat (seq 2 310)).

(** The integer cube root, one bit at a time from the top. *)
Definition cubeRoot (n : Z) : Z :=
  fold_left (fun r b => let r' := r + 2 ^ Z.of_nat b in
                        if r' * r' * r' <=? n then r' else r)
            (rev (seq 0 36)) 0.

(** The table [_K]: the first 32 bits of the fractional parts of the cube
    roots of the primes. *)
Definition K : list Z :=
  Eval vm_compute in map (fun p => cubeRoot (p * 2 ^ 96) mod 2 ^ 32) primes.

(** The initial value: the same of the square roots of the first eight. *)
Definition H0 : list Z :=
  Eval vm_compute in map (fun p => Z.sqrt (p * 2 ^ 64) mod 2 ^ 32) (firstn 8 primes).

(** The eight working variables / chaining values. *)
Record digest := Digest {
  h0 : Z; h1 : Z; h2 : Z; h3 : Z; h4 : Z; h5 : Z; h6 : Z; h7 : Z }.

Definition init : digest :=
  Digest (nth 0 H0 0) (nth 1 H0 0) (nth 2 H0 0) (nth 3 H0 0)
         (nth 4 H0 0) (nth 5 H0 0) (nth 6 H0 0) (nth 7 H0 0).

(** Padding: the bit 1, zeros up to 56 mod 64, the bit length on 8 bytes. *)
Definition be64 (n : Z) : list Z :=
  map (fun i => Z.shiftr n (8 * i) mod 256) [7; 6; 5; 4; 3; 2; 1; 0].

Definition pad (msg : list Z) : list Z :=
  let n := Z.of_nat (length msg) in
  let zeros := Z.to_nat ((55 - n) mod 64) in
  (msg ++ 0x80 :: repeat 0 zeros) ++ be64 (8 * n).

Definition be32 (b : list Z) : Z :=
  fold_left (fun acc x => Z.lor (Z.shiftl acc 8) x) b 0.

(** The sixteen big-endian words of a 64-byte block. *)
Fixpoint words (n : nat) (block : list Z) : list Z :=
  match n with
  | O => []
  | S n' => be32 (firstn 4 block) :: words n' (skipn 4 block)
  end.

(** The message schedule, kept as a window of the last sixteen words. *)
Fixpoint schedule (n : nat) (win : list Z) : list Z :=
  match n with
  | O => []
  | S n' =>
    let w := add32 (add32 (add32 (ssig1 (nth 14 win 0)) (nth 9 win 0))
                          (ssig0 (nth 1 win 0))) (nth 0 win 0) in
    w :: schedule n' (tl win ++ [w])
  end.

Definition round (d : digest) (kw : Z * Z) : digest :=
  let '(k, w) := kw in
  let t1 := add32 (add32 (add32 (add32 (h7 d) (bsig1 (h4 d)))
                                (Ch (h4 d) (h5 d) (h6 d))) k) w in
  let t2 := add32 (bsig0 (h0 d)) (Maj (h0 d) (h1 d) (h2 d)) in
  Digest (add32 t1 t2) (h0 d) (h1 d) (h2 d) (add32 (h3 d) t1) (h4 d) (h5 d) (h6 d).

Definition block (d : digest) (blk : list Z) : digest :=
  let w16 := words 16 blk in
  let w := w16 ++ schedule 48 w16 in
  let r := fold_left round (combine K w) d in
  Digest (add32 (h0 d) (h0 r)) (add32 (h1 d) (h1 r)) (add32 (h2 d) (h2 r))
         (add32 (h3 d) (h3 r)) (add32 (h4 d) (h4 r)) (add32 (h5 d) (h5 r))
         (add32 (h6 d) (h6 r)) (add32 (h7 d) (h7 r)).

Fixpoint blocks (n : nat) (d : digest) (msg : list Z) : digest :=
  match n with
  | O => d
  | S n' => blocks n' (block d (firstn 64 msg)) (skipn 64 msg)
  end.

Definition word_bytes (x : Z) : list Z :=
  [Z.shiftr x 24 mod 256; Z.shiftr x 16 mod 256; Z.shiftr x 8 mod 256; x mod 256].

(** [Sum256]: the 32 bytes of the digest. *)
Definition Sum256 (data : list Z) : list Z :=
  let m := pad data in
  let d := blocks (length m / 64)%nat init m in
  word_bytes (h0 d) ++ word_bytes (h1 d) ++ word_bytes (h2 d) ++ word_bytes (h3 d)
  ++ word_bytes (h4 d) ++ word_bytes (h5 d) ++ word_bytes (h6 d) ++ word_bytes (h7 d).

End sha256.

(** [[]byte(s)]. *)
Fixpoint bytes (s : string) : list Z :=
  match s with
  | EmptyString => []
  | String c t => byteZ c :: bytes t
  end.

(** ** Package [fmt] *)

Module fmt.

Definition hexdigit (n : Z) : ascii :=
  if n <? 10 then zbyte (48 + n) else zbyte (87 + n).

(** [Sprintf("%x", b)] for a byte array: two lower-case digits per byte. *)
Fixpoint Sprintf_x (b : list Z) : string :=
  match b with
  | [] => EmptyString
  | x :: t => String (hexdigit (x / 16 mod 16)) (String (hexdigit (x mod 16)) (Sprintf_x t))
  end.

Definition isDigit (c : ascii) : bool := (48 <=? byteZ c) && (byteZ c <=? 57).

Fixpoint allDigits (s : string) : bool :=
  match s with
  | EmptyString => true
  | String c t => isDigit c && allDigits t
  end.

(** The value of a string of decimal digits, read left to right. *)
Fixpoint decimal (acc : Z) (s : string) : Z :=
  match s with
  | EmptyString => acc
  | String c t => decimal (10 * acc + (byteZ c - 48)) t
  end.

Definition MaxInt : Z := 2 ^ 63 - 1.
Definition MinInt : Z := - 2 ^ 63.

(** Go's [int] arithmetic (64 bits) wraps around. *)
Definition wrapInt (x : Z) : Z := (x + 2 ^ 63) mod 2 ^ 64 - 2 ^ 63.

(** [Sscanf(tok, "%d", &v)] on a token of decimal digits, as the
    translator calls it on the capture of [(\d+)]; the result is the new
    value of [v].  A token beyond the range of [int] makes the scan fail
    and leaves [v] as it was; the callers drop the error. *)
Definition Sscanf_d (tok : string) (v : Z) : Z :=
  match tok with
  | EmptyString => v
  | _ => if allDigits tok && (decimal 0 tok <=? MaxInt) then decimal 0 tok else v
  end.

End fmt.

(** [unicode.ToLower]: the ASCII case is inline; beyond ASCII it is
    [To(LowerCase, r)], a search of the table [CaseRanges], which is taken
    as the parameter [To_LowerCase]. *)
Definition unicode_ToLower (To_LowerCase : rune -> rune) (r : rune) : rune :=
  if r <=? unicode.MaxASCII then
    if (65 <=? r) && (r <=? 90) then r + 32 else r
  else To_LowerCase r.

(** ** Package [strings] *)

Module strings.

(** [HasPrefix(s, p)]: [s] begins with the bytes of [p]. *)
Fixpoint HasPrefix (s p : string) {struct p} : bool :=
  match p with
  | EmptyString => true
  | String a p' =>
    match s with
    | EmptyString => false
    | String b s' => Ascii.eqb a b && HasPrefix s' p'
    end
  end.

(** [Contains(s, substr)]: [substr] starts at some byte offset of [s]. *)
Fixpoint Contains (s substr : string) : bool :=
  match s with
  | EmptyString => HasPrefix s substr
  | String _ t => HasPrefix s substr || Contains t substr
  end.

(** [Map(mapping, s)]: every rune of [s] replaced by its image, a negative
    image dropped; invalid bytes are read as [RuneError]. *)
Definition Map (mapping : rune -> rune) (s : string) : string :=
  concatStrings
    (map (fun c => let r := mapping c in
                   if r <? 0 then EmptyString else utf8.EncodeRune r)
         (runes s)).

Fixpoint isASCII (s : string) : bool :=
  match s with
  | EmptyString => true
  | String c t => (byteZ c <? utf8.RuneSelf) && isASCII t
  end.

Fixpoint lowerASCII (s : string) : string :=
  match s with
  | EmptyString => EmptyString
  | String c t =>
    String (if (65 <=? byteZ c) && (byteZ c <=? 90) then zbyte (byteZ c + 32) else c)
           (lowerASCII t)
  end.

(** [ToLower(s)]: byte by byte on an ASCII string, else [Map] with
    [unicode.ToLower]. *)
Definition ToLower (To_LowerCase : rune -> rune) (s : string) : string :=
  if isASCII s then lowerASCII s
  else Map (unicode_ToLower To_LowerCase) s.

(** [FieldsFunc(s, unicode.IsSpace)], which [Fields] computes: the maximal
    runs of runes that are not spaces; [cur] is the field being read. *)
Fixpoint fieldsFrom (cur : option string) (cs : list (rune * string)) : list string :=
  match cs with
  | [] => match cur with Some w => [w] | None => [] end
  | (r, b) :: t =>
    if unicode.IsSpace r then
      match cur with
      | Some w => w :: fieldsFrom None t
      | None => fieldsFrom None t
      end
    else fieldsFrom (Some (match cur with Some w => w +:+ b | None => b end)) t
  end.

Definition Fields (s : string) : list string := fieldsFrom None (chunks s).

End strings.

(** ** Package [regexp]: the four expressions the program compiles *)

Module regexp.

(** The Perl class [\s] of RE2: tab, line feed, form feed, carriage return
    and space. *)
Definition isPerlSpace (c : ascii) : bool :=
  let b := byteZ c in
  (b =? 9) || (b =? 10) || (b =? 12) || (b =? 13) || (b =? 32).

(** [MustCompile(`\s+`).ReplaceAllString(s, "")]: every run of [\s] bytes
    is replaced by nothing, the other bytes are copied. *)
Fixpoint removeSpaceRuns (s : string) : string :=
  match s with
  | EmptyString => EmptyString
  | String c t => if isPerlSpace c then removeSpaceRuns t else String c (removeSpaceRuns t)
  end.

(** The greedy [\d+] at the head of [s]. *)
Fixpoint takeDigits (s : string) : string :=
  match s with
  | EmptyString => EmptyString
  | String c t => if fmt.isDigit c then String c (takeDigits t) else EmptyString
  end.

(** A match of [lit(\d+)] anchored at the head of [s]: the capture. *)
Definition digitsAt (lit s : string) : option string :=
  if strings.HasPrefix s lit then
    match takeDigits (skip s (String.length lit)) with
    | EmptyString => None
    | ds => Some ds
    end
  else None.

(** [MustCompile("lit(\d+)").FindStringSubmatch(s)]: the capture of the
    leftmost match, [None] for a nil result. *)
Fixpoint findDigits (lit s : string) : option string :=
  match digitsAt lit s with
  | Some ds => Some ds
  | None => match s with
            | EmptyString => None
            | String _ t => findDigits lit t
            end
  end.

Definition isLowerLetter (c : ascii) : bool := (97 <=? byteZ c) && (byteZ c <=? 122).

Definition orElse {A} (x y : option A) : option A :=
  match x with Some _ => x | None => y end.

(** ['?([a-z])'?] at the head of [s]: the optional quote is tried first. *)
Definition quotedLetter (s : string) : option ascii :=
  orElse
    (match s with
     | String q (String c _) =>
       if Ascii.eqb q "'"%char && isLowerLetter c then Some c else None
     | _ => None
     end)
    (match s with
     | String c _ => if isLowerLetter c then Some c else None
     | _ => None
     end).

Definition afterWord (w s : string) : option ascii :=
  if strings.HasPrefix s w then quotedLetter (skip s (String.length w)) else None.

(** [ (?:the |letter |character )?'?([a-z])'?] at the head of [s]: the
    alternatives of the optional group in order, then the group left out. *)
Definition afterKeyword (s : string) : option ascii :=
  match s with
  | String sp rest =>
    if Ascii.eqb sp " "%char then
      orElse (afterWord "the " rest)
        (orElse (afterWord "letter " rest)
           (orElse (afterWord "character " rest) (quotedLetter rest)))
    else None
  | EmptyString => None
  end.

(** A match of the character pattern anchored at the head of [s]. *)
Definition charAt (s : string) : option ascii :=
  orElse
    (if strings.HasPrefix s "contain" then afterKeyword (skip s 7) else None)
    (if strings.HasPrefix s "with" then afterKeyword (skip s 4) else None).

(** [charPattern.FindStringSubmatch(s)]: the captured letter of the
    leftmost match. *)
Fixpoint findChar (s : string) : option string :=
  match charAt s with
  | Some c => Some (String c EmptyString)
  | None => match s with
            | EmptyString => None
            | String _ t => findChar t
            end
  end.

End regexp.

(** ** The data model of [main.go] *)

(** [time.Time] after [UTC()]: the wall clock reading in nanoseconds. *)
Abbreviation Time := Z (only parsing).

Record StringProperties := {
  Length : Z;
  IsPalindrome : bool;
  UniqueCharacters : Z;
  WordCount : Z;
  SHA256Hash : string;
  CharacterFrequencyMap : gmap string Z }.

Record AnalyzedString := {
  ID : string;
  Value : string;
  Properties : StringProperties;
  CreatedAt : Time }.

Record CreateStringRequest := { ReqValue : string }.

(** Pointer fields: [None] is [nil].  The fields carry a [p], the names
    without it being those of [StringProperties]. *)
Record FilterParams := {
  pIsPalindrome : option bool;
  pMinLength : option Z;
  pMaxLength : option Z;
  pWordCount : option Z;
  pContainsCharacter : option string }.

(** The dynamic values stored in a [map[string]interface{}]. *)
Inductive FilterValue :=
| VInt (n : Z)
| VBool (b : bool)
| VString (s : string).

Record NaturalLanguageQuery := {
  Original : string;
  ParsedFilters : gmap string FilterValue }.

Record FilterResponse := {
  Data : list AnalyzedString;
  Count : Z;
  FiltersApplied : gmap string FilterValue;
  InterpretedQuery : option NaturalLanguageQuery }.

(** What a handler writes with [c.JSON]. *)
Inductive Body :=
| BError (msg : string)
| BRecord (a : AnalyzedString)
| BList (r : FilterResponse)
| BNil.

Record Response := JSON { Status : Z; Payload : Body }.

Definition StatusOK : Z := 200.
Definition StatusCreated : Z := 201.
Definition StatusNoContent : Z := 204.
Definition StatusBadRequest : Z := 400.
Definition StatusNotFound : Z := 404.
Definition StatusConflict : Z := 409.
Definition StatusUnprocessableEntity : Z := 422.

(** A function that returns [(T, error)]. *)
Inductive result (A : Type) :=
| Ok (a : A)
| Err (msg : string).
Arguments Ok {A} a.
Arguments Err {A} msg.

(** [runes[i]]; an index out of range panics ([None]). *)
Definition index (l : list rune) (i : Z) : option rune :=
  if i <? 0 then None else l !! Z.to_nat i.

(** The loop of [checkPalindrome]:
    [for i, j := 0, len(runes)-1; i < j; i, j = i+1, j-1]. *)
Equations? palindromeLoop (rs : list rune) (i j : Z) : option bool
  by wf (Z.to_nat (j - i)) lt :=
  palindromeLoop rs i j with Z_lt_dec i j := {
    | left _ =>
      match index rs i, index rs j with
      | Some a, Some b =>
        if negb (a =? b) then Some false else palindromeLoop rs (i + 1) (j - 1)
      | _, _ => None
      end
    | right _ => Some true }.
Proof. lia. Qed.

(** The test [r != ' ' && r != '\t' && r != '\n'] of the two counting
    functions. *)
Definition counted (r : rune) : bool :=
  negb (r =? 32) && negb (r =? 9) && negb (r =? 10).

(** [sort.Slice(x, less)] promises a permutation in which no element is
    [less] than one before it; it does not promise stability. *)
Definition sort_Slice {A} (less : A -> A -> bool) (l l' : list A) : Prop :=
  l ≡ₚ l' /\ StronglySorted (fun x y => less y x = false) l'.

(** Insertion sort, which [sort.Slice] runs on short slices. *)
Fixpoint insertSorted {A} (less : A -> A -> bool) (x : A) (l : list A) : list A :=
  match l with
  | [] => [x]
  | y :: t => if less x y then x :: l else y :: insertSorted less x t
  end.

Definition insertionSort {A} (less : A -> A -> bool) (l : list A) : list A :=
  fold_left (fun acc x => insertSorted less x acc) l [].

(** ** Notions used in the statements *)

(** The Unicode scalar values: what a rune read from a string can be. *)
Definition validRune (r : rune) : Prop :=
  0 <= r <= utf8.MaxRune /\ ~ (utf8.surrogateMin <= r <= utf8.surrogateMax).

(** The bytes of an encoded scalar value, in arithmetic. *)
Definition encodedBytes (r : rune) : list Z :=
  if r <=? 0x7F then [r]
  else if r <=? 0x7FF then [192 + r / 64; 128 + r mod 64]
  else if r <=? 0xFFFF then [224 + r / 4096; 128 + r / 64 mod 64; 128 + r mod 64]
  else [240 + r / 262144; 128 + r / 4096 mod 64; 128 + r / 64 mod 64; 128 + r mod 64].

(** The bytes that [\s] matches. *)
Definition perlSpaces : list ascii :=
  ["009"; "010"; "012"; "013"; " "]%char.

(** The byte 11, the vertical tab. *)
Definition verticalTab : string := String "011"%char EmptyString.

(** The string made of the given bytes. *)
Definition stringOfBytes (l : list Z) : string :=
  fold_right (fun b s => String (zbyte b) s) EmptyString l.

(** [sub] occurs in [s]. *)
Definition substringOf (sub s : string) : Prop :=
  exists pre post, s = pre +:+ sub +:+ post.

(** [ds] is a run of decimal digits that [post] does not continue. *)
Definition digitRun (ds post : string) : Prop :=
  ds <> EmptyString /\ fmt.allDigits ds = true /\
  match post with
  | String c _ => fmt.isDigit c = false
  | EmptyString => True
  end.

(** [lit] followed by the digit run [ds] occurs in [s] right after [pre];
    the leftmost such occurrence. *)
Definition matchAt (lit s pre ds post : string) : Prop :=
  s = pre +:+ lit +:+ ds +:+ post /\ digitRun ds post.

Definition leftmostMatch (lit s pre ds post : string) : Prop :=
  matchAt lit s pre ds post /\
  forall pre' ds' post', matchAt lit s pre' ds' post' ->
                         (String.length pre <= String.length pre')%nat.

(** The character pattern occurs in [s] right after [pre], with [x] as a
    letter it can capture: [contain] or [with], a space, optionally
    [the ], [letter ] or [character ], optionally a quote, the letter. *)
Definition charMatch (s pre : string) (x : ascii) : Prop :=
  exists kw opt q post,
    s = pre +:+ kw +:+ " " +:+ opt +:+ q +:+ String x post /\
    kw ∈ ["contain"; "with"] /\
    opt ∈ [""; "the "; "letter "; "character "] /\
    q ∈ [""; "'"] /\
    regexp.isLowerLetter x = true.

(** Some pattern of the translator's vocabulary occurs in the lower-cased
    query. *)
Definition patternMatches (lowerQuery : string) : Prop :=
  substringOf "single word" lowerQuery \/
  substringOf "two word" lowerQuery \/ substringOf "2 word" lowerQuery \/
  substringOf "three word" lowerQuery \/ substringOf "3 word" lowerQuery \/
  substringOf "palindrom" lowerQuery \/
  (exists pre ds post, matchAt "longer than " lowerQuery pre ds post) \/
  (exists pre ds post, matchAt "shorter than " lowerQuery pre ds post) \/
  (exists pre x, charMatch lowerQuery pre x) \/
  substringOf "first vowel" lowerQuery \/ substringOf "last vowel" lowerQuery.

Definition isLowerHex (c : ascii) : bool :=
  ((48 <=? byteZ c) && (byteZ c <=? 57)) || ((97 <=? byteZ c) && (byteZ c <=? 102)).

Fixpoint allLowerHex (s : string) : bool :=
  match s with
  | EmptyString => true
  | String c t => isLowerHex c && allLowerHex t
  end.

(** The sum of the counts of a frequency map. *)
Definition sumValues (m : gmap string Z) : Z :=
  map_fold (fun _ v acc => v + acc) 0 m.

(** The records of a response that lists records. *)
Definition dataOf (resp : Response) : list AnalyzedString :=
  match Payload resp with
  | BList r => Data r
  | _ => []
  end.

(** The lower case of a byte, as [strings.ToLower] takes it on a string of
    ASCII bytes. *)
Definition lowerByte (c : ascii) : ascii :=
  if (65 <=? byteZ c) && (byteZ c <=? 90) then zbyte (byteZ c + 32) else c.

(** ** The functions of [main.go] *)

(** The table [unicode.CaseRanges] is not part of the program: what is
    used of it is the map [To(LowerCase, r)] it induces beyond ASCII. *)
Class CaseRanges := To_LowerCase : rune -> rune.

Section Service.

Context `{CaseRanges}.

Definition ToLower (s : string) : string := strings.ToLower To_LowerCase s.

(** [checkPalindrome] *)
Definition cleaned (s : string) : string := ToLower (regexp.removeSpaceRuns s).

Definition palindromeRun (rs : list rune) : option bool :=
  palindromeLoop rs 0 (Z.of_nat (length rs) - 1).

(** The loop never indexes out of range ([palindromeRun_total] below), so
    the [None] branch is dead. *)
Definition checkPalindrome (s : string) : bool :=
  match palindromeRun (runes (cleaned s)) with
  | Some b => b
  | None => false
  end.

(** [countUniqueCharacters] *)
Definition charSetOf (s : string) : gmap Z bool :=
  fold_left (fun (charSet : gmap Z bool) r =>
               if counted r then <[r := true]> charSet else charSet)
            (runes (ToLower s)) ∅.

Definition countUniqueCharacters (s : string) : Z :=
  Z.of_nat (size (charSetOf s)).

(** [countWords] *)
Definition countWords (s : string) : Z :=
  Z.of_nat (length (strings.Fields s)).

(** [calculateSHA256] *)
Definition calculateSHA256 (s : string) : string :=
  fmt.Sprintf_x (sha256.Sum256 (bytes s)).

(** [buildCharacterFrequencyMap]; [freqMap[k]++] reads 0 for a missing
    key.  A count is bounded by the length of the string, so the
    increment stays within [int]. *)
Definition increment (freqMap : gmap string Z) (k : string) : gmap string Z :=
  <[k := default 0 (freqMap !! k) + 1]> freqMap.

Definition buildCharacterFrequencyMap (s : string) : gmap string Z :=
  fold_left (fun (freqMap : gmap string Z) r =>
               if counted r then increment freqMap (utf8.EncodeRune r) else freqMap)
            (runes (ToLower s)) ∅.

(** [analyzeString] *)
Definition analyzeString (value : string) : StringProperties :=
  let length := RuneCountInString value in
  let isPalindrome := checkPalindrome value in
  let uniqueChars := countUniqueCharacters value in
  let wordCount := countWords value in
  let sha256Hash := calculateSHA256 value in
  let charFreqMap := buildCharacterFrequencyMap value in
  {| Length := length;
     IsPalindrome := isPalindrome;
     UniqueCharacters := uniqueChars;
     WordCount := wordCount;
     SHA256Hash := sha256Hash;
     CharacterFrequencyMap := charFreqMap |}.

(** [matchesFilters] *)
Definition matchesFilters (analyzed : AnalyzedString) (params : FilterParams) : bool :=
  if match pIsPalindrome params with
     | Some b => negb (Bool.eqb (IsPalindrome (Properties analyzed)) b)
     | None => false
     end then false
  else if match pMinLength params with
          | Some n => Length (Properties analyzed) <? n
          | None => false
          end then false
  else if match pMaxLength params with
          | Some n => Length (Properties analyzed) >? n
          | None => false
          end then false
  else if match pWordCount params with
          | Some n => negb (WordCount (Properties analyzed) =? n)
          | None => false
          end then false
  else
    match pContainsCharacter params with
    | Some c =>
      let char := ToLower c in
      match CharacterFrequencyMap (Properties analyzed) !! char with
      | None => false
      | Some _ => true
      end
    | None => true
    end.

(** [parseNaturalLanguageQuery], one definition per block of the body;
    each takes the map [filters] built so far. *)
Definition wordCountRules (lowerQuery : string) (filters : gmap string FilterValue)
  : gmap string FilterValue :=
  if strings.Contains lowerQuery "single word" then <["word_count" := VInt 1]> filters
  else if strings.Contains lowerQuery "two word" || strings.Contains lowerQuery "2 word"
  then <["word_count" := VInt 2]> filters
  else if strings.Contains lowerQuery "three word" || strings.Contains lowerQuery "3 word"
  then <["word_count" := VInt 3]> filters
  else filters.

Definition palindromeRule (lowerQuery : string) (filters : gmap string FilterValue)
  : gmap string FilterValue :=
  if strings.Contains lowerQuery "palindrom" then <["is_palindrome" := VBool true]> filters
  else filters.

Definition longerRule (lowerQuery : string) (filters : gmap string FilterValue)
  : gmap string FilterValue :=
  match regexp.findDigits "longer than " lowerQuery with
  | Some m1 =>
    let minLength := fmt.Sscanf_d m1 0 in
    <["min_length" := VInt (fmt.wrapInt (minLength + 1))]> filters
  | None => filters
  end.

Definition shorterRule (lowerQuery : string) (filters : gmap string FilterValue)
  : gmap string FilterValue :=
  match regexp.findDigits "shorter than " lowerQuery with
  | Some m1 =>
    let maxLength := fmt.Sscanf_d m1 0 in
    <["max_length" := VInt (fmt.wrapInt (maxLength - 1))]> filters
  | None => filters
  end.

Definition charRule (lowerQuery : string) (filters : gmap string FilterValue)
  : gmap string FilterValue :=
  match regexp.findChar lowerQuery with
  | Some m1 => <["contains_character" := VString m1]> filters
  | None => filters
  end.

Definition vowelRules (lowerQuery : string) (filters : gmap string FilterValue)
  : gmap string FilterValue :=
  if strings.Contains lowerQuery "first vowel"
  then <["contains_character" := VString "a"]> filters
  else if strings.Contains lowerQuery "last vowel"
  then <["contains_character" := VString "u"]> filters
  else filters.

Definition parsedFilters (query : string) : gmap string FilterValue :=
  let lowerQuery := ToLower query in
  vowelRules lowerQuery
    (charRule lowerQuery
       (shorterRule lowerQuery
          (longerRule lowerQuery
             (palindromeRule lowerQuery
                (wordCountRules lowerQuery ∅))))).

Definition parseNaturalLanguageQuery (query : string)
  : result (gmap string FilterValue) :=
  let filters := parsedFilters query in
  if (size filters =? 0)%nat
  then Err "unable to parse any filters from query"
  else Ok filters.

(** [convertParsedFiltersToParams]: each field is set when the key holds a
    value of the asserted type. *)
Definition convertParsedFiltersToParams (parsed : gmap string FilterValue)
  : FilterParams :=
  {| pIsPalindrome :=
       match parsed !! "is_palindrome" with Some (VBool b) => Some b | _ => None end;
     pMinLength :=
       match parsed !! "min_length" with Some (VInt n) => Some n | _ => None end;
     pMaxLength :=
       match parsed !! "max_length" with Some (VInt n) => Some n | _ => None end;
     pWordCount :=
       match parsed !! "word_count" with Some (VInt n) => Some n | _ => None end;
     pContainsCharacter :=
       match parsed !! "contains_character" with Some (VString c) => Some c | _ => None end |}.

(** ** The handlers

    [stringStore] is the package-level map; a handler takes it and, when it
    writes, returns the new one.  [bound] is the outcome of the binding of
    the request ([ShouldBindJSON], [ShouldBindQuery]), [None] for an
    error; [now] is the reading of [time.Now().UTC()]. *)

(** [createString] *)
Definition createString (bound : option CreateStringRequest) (now : Time)
    (stringStore : gmap string AnalyzedString)
  : Response * gmap string AnalyzedString :=
  match bound with
  | None =>
    (JSON StatusBadRequest (BError "Invalid request body or missing 'value' field"),
     stringStore)
  | Some req =>
    if (len (ReqValue req) =? 0) && negb (String.eqb (ReqValue req) "") then
      (JSON StatusUnprocessableEntity
            (BError "Invalid data type for 'value' (must be string)"),
       stringStore)
    else
      let props := analyzeString (ReqValue req) in
      let hash := SHA256Hash props in
      match stringStore !! hash with
      | Some _ =>
        (JSON StatusConflict (BError "String already exists in the system"),
         stringStore)
      | None =>
        let analyzed := {| ID := hash;
                           Value := ReqValue req;
                           Properties := props;
                           CreatedAt := now |} in
        (JSON StatusCreated (BRecord analyzed), <[hash := analyzed]> stringStore)
      end
  end.

(** [getString] *)
Definition getString (value : string) (stringStore : gmap string AnalyzedString)
  : Response :=
  let hash := calculateSHA256 value in
  match stringStore !! hash with
  | None => JSON StatusNotFound (BError "String does not exist in the system")
  | Some analyzed => JSON StatusOK (BRecord analyzed)
  end.

(** [deleteString] *)
Definition deleteString (value : string) (stringStore : gmap string AnalyzedString)
  : Response * gmap string AnalyzedString :=
  let hash := calculateSHA256 value in
  match stringStore !! hash with
  | None =>
    (JSON StatusNotFound (BError "String does not exist in the system"), stringStore)
  | Some _ => (JSON StatusNoContent BNil, delete hash stringStore)
  end.

(** The loop [for _, analyzed := range stringStore] that appends the
    matching records, run over the entries in the order [iter] in which
    the runtime yields them. *)
Definition collect (params : FilterParams) (iter : list (string * AnalyzedString))
  : list AnalyzedString :=
  fold_left (fun results kv =>
               if matchesFilters (snd kv) params then results ++ [snd kv] else results)
            iter [].

(** [results[i].CreatedAt.Before(results[j].CreatedAt)] *)
Definition createdBefore (x y : AnalyzedString) : bool := CreatedAt x <? CreatedAt y.

Definition filtersAppliedOf (params : FilterParams) : gmap string FilterValue :=
  let f0 : gmap string FilterValue := ∅ in
  let f1 := match pIsPalindrome params with
            | Some b => <["is_palindrome" := VBool b]> f0 | None => f0 end in
  let f2 := match pMinLength params with
            | Some n => <["min_length" := VInt n]> f1 | None => f1 end in
  let f3 := match pMaxLength params with
            | Some n => <["max_length" := VInt n]> f2 | None => f2 end in
  let f4 := match pWordCount params with
            | Some n => <["word_count" := VInt n]> f3 | None => f3 end in
  match pContainsCharacter params with
  | Some c => <["contains_character" := VString c]> f4 | None => f4 end.

(** The order of a [range] over a map is not specified: any enumeration
    of the entries may be the one that happens. *)
Definition rangeOrder (stringStore : gmap string AnalyzedString)
    (iter : list (string * AnalyzedString)) : Prop :=
  iter ≡ₚ map_to_list stringStore.

(** [getAllStrings]: the responses the handler can give. *)
Definition getAllStrings (bound : option FilterParams)
    (stringStore : gmap string AnalyzedString) (resp : Response) : Prop :=
  match bound with
  | None =>
    resp = JSON StatusBadRequest (BError "Invalid query parameter values or types")
  | Some params =>
    exists iter results,
      rangeOrder stringStore iter /\
      sort_Slice createdBefore (collect params iter) results /\
      resp = JSON StatusOK
               (BList {| Data := results;
                         Count := Z.of_nat (length results);
                         FiltersApplied := filtersAppliedOf params;
                         InterpretedQuery := None |})
  end.

(** [filterByNaturalLanguage]: the responses the handler can give. *)
Definition filterByNaturalLanguage (query : string)
    (stringStore : gmap string AnalyzedString) (resp : Response) : Prop :=
  if String.eqb query "" then
    resp = JSON StatusBadRequest (BError "Missing 'query' parameter")
  else
    match parseNaturalLanguageQuery query with
    | Err err =>
      resp = JSON StatusBadRequest
               (BError ("Unable to parse natural language query: " +:+ err))
    | Ok parsedFilters =>
      let filterParams := convertParsedFiltersToParams parsedFilters in
      exists iter results,
        rangeOrder stringStore iter /\
        sort_Slice createdBefore (collect filterParams iter) results /\
        resp = JSON StatusOK
                 (BList {| Data := results;
                           Count := Z.of_nat (length results);
                           FiltersApplied := ∅;
                           InterpretedQuery :=
                             Some {| Original := query;
                                     ParsedFilters := parsedFilters |} |})
    end.

(** One enumeration that can happen, with the insertion sort: a response
    that [getAllStrings] can give, computed. *)
Definition listAllRun (params : FilterParams)
    (stringStore : gmap string AnalyzedString) : list AnalyzedString :=
  insertionSort createdBefore (collect params (map_to_list stringStore)).

(** The requests that write to the store, and the store after a sequence
    of them, starting from the empty map of [make]. *)
Inductive mutation :=
| Create (bound : option CreateStringRequest) (now : Time)
| Delete (value : string).

Definition apply (stringStore : gmap string AnalyzedString) (m : mutation)
  : gmap string AnalyzedString :=
  match m with
  | Create bound now => snd (createString bound now stringStore)
  | Delete value => snd (deleteString value stringStore)
  end.

Definition storeAfter (ms : list mutation) : gmap string AnalyzedString :=
  fold_left apply ms ∅.

Definition noFilter : FilterParams :=
  {| pIsPalindrome := None; pMinLength := None; pMaxLength := None;
     pWordCount := None; pContainsCharacter := None |}.

(** ** Notions about the store used in the statements *)

(** No record comes before an earlier one: the order [sort.Slice] leaves. *)
Definition notAfter (x y : AnalyzedString) : Prop := createdBefore y x = false.

(** The invariant of the store. *)
Definition recordOk (k : string) (r : AnalyzedString) : Prop :=
  k = ID r /\ ID r = calculateSHA256 (Value r) /\
  SHA256Hash (Properties r) = ID r /\
  Properties r = analyzeString (Value r).

(** The record that [createString] builds. *)
Definition newRecord (value : string) (now : Time) : AnalyzedString :=
  {| ID := calculateSHA256 value;
     Value := value;
     Properties := analyzeString value;
     CreatedAt := now |}.

(** The answer of [getAllStrings] that lists [results]. *)
Definition listResponse (params : FilterParams) (results : list AnalyzedString)
  : Response :=
  JSON StatusOK
       (BList {| Data := results;
                 Count := Z.of_nat (length results);
                 FiltersApplied := filtersAppliedOf params;
                 InterpretedQuery := None |}).

(** ** The readings of the specification that the code is compared with *)

(** The runes that the two counting functions count: those of the
    lower-cased string other than space, tab and line feed. *)
Definition countedRunes (s : string) : list rune :=
  filter (fun r => r <> 32 /\ r <> 9 /\ r <> 10) (runes (ToLower s)).

(** The palindrome test with every white space rune removed, then the
    case folded. *)
Definition claimedPalindrome (s : string) : Prop :=
  let folded := map (unicode_ToLower To_LowerCase)
                    (filter (fun r => unicode.IsSpace r = false) (runes s)) in
  folded = rev folded.

(** The translator with its nine rules tried one after another, each
    writing its key whenever its own pattern matches. *)
Definition setIf (b : bool) (k : string) (v : FilterValue)
    (filters : gmap string FilterValue) : gmap string FilterValue :=
  if b then <[k := v]> filters else filters.

Definition claimedFilters (query : string) : gmap string FilterValue :=
  let lq := ToLower query in
  let f1 := setIf (strings.Contains lq "single word") "word_count" (VInt 1) ∅ in
  let f2 := setIf (strings.Contains lq "two word" || strings.Contains lq "2 word")
                  "word_count" (VInt 2) f1 in
  let f3 := setIf (strings.Contains lq "three word" || strings.Contains lq "3 word")
                  "word_count" (VInt 3) f2 in
  let f4 := setIf (strings.Contains lq "palindrom") "is_palindrome" (VBool true) f3 in
  let f5 := longerRule lq f4 in
  let f6 := shorterRule lq f5 in
  let f7 := charRule lq f6 in
  let f8 := setIf (strings.Contains lq "first vowel")
                  "contains_character" (VString "a") f7 in
  setIf (strings.Contains lq "last vowel") "contains_character" (VString "u") f8.

End Service.

(** An empty case table, under which [To] leaves every rune as it is.
    The examples below are ASCII strings, which [ToLower] never looks up
    in the table, and one emoji, which has no case. *)
Definition noCaseRanges : CaseRanges := fun r => r.

(** * Properties *)

Ltac dlia := Z.to_euclidean_division_equations; lia.

(** ** Bytes, and the bit operations of the UTF-8 codec in arithmetic *)

Lemma byteZ_range c : 0 <= byteZ c < 256.
Proof.
  unfold byteZ. pose proof (N_ascii_bounded c) as H. lia.
Qed.

Lemma byteZ_zbyte z : 0 <= z < 256 -> byteZ (zbyte z) = z.
Proof.
  intros H. unfold byteZ, zbyte. rewrite Z.mod_small by lia.
  rewrite N_ascii_embedding by lia. lia.
Qed.

Lemma zbyte_byteZ c : zbyte (byteZ c) = c.
Proof.
  unfold byteZ, zbyte. pose proof (N_ascii_bounded c) as H.
  rewrite Z.mod_small by lia. rewrite N2Z.id. apply ascii_N_embedding.
Qed.

Lemma zbyte_inj x y : 0 <= x < 256 -> 0 <= y < 256 -> zbyte x = zbyte y -> x = y.
Proof.
  intros Hx Hy H. rewrite <- (byteZ_zbyte x Hx), <- (byteZ_zbyte y Hy). now rewrite H.
Qed.

Lemma land_low_high x b n :
  0 <= n -> 0 <= b < 2 ^ n -> x mod 2 ^ n = 0 -> Z.land x b = 0.
Proof.
  intros Hn Hb Hx. apply Z.bits_inj'. intros k Hk.
  rewrite Z.land_spec, Z.bits_0.
  destruct (Z_lt_dec k n) as [Hlt|Hge].
  - rewrite <- (Z.mod_pow2_bits_low x n k) by lia. rewrite Hx, Z.bits_0. reflexivity.
  - rewrite <- (Z.mod_small b (2 ^ n)) by lia.
    rewrite Z.mod_pow2_bits_high by lia. apply Bool.andb_false_r.
Qed.

Lemma lor_low_high x b n :
  0 <= n -> 0 <= b < 2 ^ n -> x mod 2 ^ n = 0 -> Z.lor x b = x + b.
Proof.
  intros Hn Hb Hx. pose proof (Z.add_lor_land x b) as H.
  rewrite (land_low_high x b n) in H by assumption. lia.
Qed.

Lemma lor6 x b : 0 <= b < 64 -> x mod 64 = 0 -> Z.lor x b = x + b.
Proof. apply (lor_low_high x b 6). lia. Qed.
Lemma lor12 x b : 0 <= b < 4096 -> x mod 4096 = 0 -> Z.lor x b = x + b.
Proof. apply (lor_low_high x b 12). lia. Qed.
Lemma lor18 x b : 0 <= b < 262144 -> x mod 262144 = 0 -> Z.lor x b = x + b.
Proof. apply (lor_low_high x b 18). lia. Qed.
Lemma shl6 x : Z.shiftl x 6 = x * 64.
Proof. apply (Z.shiftl_mul_pow2 x 6). lia. Qed.
Lemma shl12 x : Z.shiftl x 12 = x * 4096.
Proof. apply (Z.shiftl_mul_pow2 x 12). lia. Qed.
Lemma shl18 x : Z.shiftl x 18 = x * 262144.
Proof. apply (Z.shiftl_mul_pow2 x 18). lia. Qed.
Lemma shr6 x : Z.shiftr x 6 = x / 64.
Proof. apply (Z.shiftr_div_pow2 x 6). lia. Qed.
Lemma shr12 x : Z.shiftr x 12 = x / 4096.
Proof. apply (Z.shiftr_div_pow2 x 12). lia. Qed.
Lemma shr18 x : Z.shiftr x 18 = x / 262144.
Proof. apply (Z.shiftr_div_pow2 x 18). lia. Qed.
Lemma land63 x : Z.land x 63 = x mod 64.
Proof. apply (Z.land_ones x 6). lia. Qed.
Lemma land31 x : Z.land x 31 = x mod 32.
Proof. apply (Z.land_ones x 5). lia. Qed.
Lemma land15 x : Z.land x 15 = x mod 16.
Proof. apply (Z.land_ones x 4). lia. Qed.
Lemma land7 x : Z.land x 7 = x mod 8.
Proof. apply (Z.land_ones x 3). lia. Qed.

Lemma decode2 s0 s1 :
  Z.lor (Z.shiftl (Z.land s0 31) 6) (Z.land s1 63) = s0 mod 32 * 64 + s1 mod 64.
Proof.
  rewrite land31, land63, shl6. apply lor6; dlia.
Qed.

Lemma decode3 s0 s1 s2 :
  Z.lor (Z.lor (Z.shiftl (Z.land s0 15) 12) (Z.shiftl (Z.land s1 63) 6)) (Z.land s2 63)
  = s0 mod 16 * 4096 + s1 mod 64 * 64 + s2 mod 64.
Proof.
  rewrite land15, !land63, shl6, shl12.
  rewrite (lor12 (s0 mod 16 * 4096)) by dlia.
  apply lor6; dlia.
Qed.

Lemma decode4 s0 s1 s2 s3 :
  Z.lor (Z.lor (Z.lor (Z.shiftl (Z.land s0 7) 18) (Z.shiftl (Z.land s1 63) 12))
               (Z.shiftl (Z.land s2 63) 6)) (Z.land s3 63)
  = s0 mod 8 * 262144 + s1 mod 64 * 4096 + s2 mod 64 * 64 + s3 mod 64.
Proof.
  rewrite land7, !land63, shl6, shl12, shl18.
  rewrite (lor18 (s0 mod 8 * 262144)) by dlia.
  rewrite (lor12 (s0 mod 8 * 262144 + _)) by dlia.
  apply lor6; dlia.
Qed.

Lemma DecodeRuneInString_valid s : validRune (fst (utf8.DecodeRuneInString s)).
Proof.
  unfold validRune, utf8.MaxRune, utf8.surrogateMin, utf8.surrogateMax.
  destruct s as [|c0 t]; [cbn; unfold utf8.RuneError; lia|].
  unfold utf8.DecodeRuneInString.
  pose proof (byteZ_range c0) as H0.
  set (s0 := byteZ c0) in *.
  set (s1 := byteAt (String c0 t) 1). set (s2 := byteAt (String c0 t) 2).
  set (s3 := byteAt (String c0 t) 3).
  unfold utf8.first, utf8.RuneSelf, utf8.RuneError, utf8.locb, utf8.hicb,
    utf8.mask2, utf8.mask3, utf8.mask4, utf8.maskx.
  repeat (case_match; simplify_eq; cbn [fst]; try lia);
    rewrite ?decode2, ?decode3, ?decode4;
    repeat match goal with
           | H : (_ || _) = false |- _ => apply orb_false_elim in H; destruct H
           | H : (_ <? _) = _ |- _ => apply Z.ltb_ge in H || apply Z.ltb_lt in H
           | H : (_ <=? _) = _ |- _ => apply Z.leb_le in H || apply Z.leb_gt in H
           | H : (_ =? _) = _ |- _ => apply Z.eqb_eq in H || apply Z.eqb_neq in H
           end; dlia.
Qed.

Lemma skip_length t n : (String.length (skip t n) <= String.length t)%nat.
Proof.
  revert n. induction t as [|c t IH]; intros n; [simpl; lia|].
  destruct n as [|n]; [simpl; lia|]. simpl. specialize (IH n). lia.
Qed.

Lemma runes_valid s : Forall validRune (runes s).
Proof.
  remember (String.length s) as n eqn:Hn.
  revert s Hn. induction (lt_wf n) as [n _ IH]. intros s Hn.
  destruct s as [|c t]; [constructor|].
  cbn [runes].
  pose proof (DecodeRuneInString_valid (String c t)) as Hv.
  destruct (utf8.DecodeRuneInString (String c t)) as [r w]. cbn [fst] in Hv.
  constructor; [exact Hv|].
  eapply (IH (String.length (skip t (Nat.pred w)))); [|reflexivity].
  subst n. pose proof (skip_length t (Nat.pred w)). simpl. lia.
Qed.

Lemma lor4 x b : 0 <= b < 16 -> x mod 16 = 0 -> Z.lor x b = x + b.
Proof. apply (lor_low_high x b 4). lia. Qed.

Lemma EncodeRune_bytes r : validRune r -> bytes (utf8.EncodeRune r) = encodedBytes r.
Proof.
  unfold validRune, utf8.MaxRune, utf8.surrogateMin, utf8.surrogateMax.
  intros [Hr Hs].
  unfold utf8.EncodeRune, utf8.encode3, encodedBytes, utf8.rune1Max, utf8.rune2Max,
    utf8.rune3Max, utf8.MaxRune, utf8.surrogateMin, utf8.surrogateMax,
    utf8.t2, utf8.t3, utf8.t4, utf8.tx, utf8.maskx.
  rewrite !land63, !shr6, !shr12, !shr18.
  repeat match goal with
         | |- context [?a <=? ?b] => destruct (Z.leb_spec a b); cbn [andb orb]
         | |- context [?a <? ?b] => destruct (Z.ltb_spec a b); cbn [andb orb]
         end; try lia; cbn [bytes];
    repeat first [ rewrite (lor6 192) by dlia | rewrite (lor6 128) by dlia
                 | rewrite (lor4 224) by dlia | rewrite (lor4 240) by dlia ];
    repeat (rewrite byteZ_zbyte by dlia); reflexivity.
Qed.

Lemma EncodeRune_inj r1 r2 :
  validRune r1 -> validRune r2 -> utf8.EncodeRune r1 = utf8.EncodeRune r2 -> r1 = r2.
Proof.
  intros H1 H2 Heq. apply (f_equal bytes) in Heq.
  rewrite !EncodeRune_bytes in Heq by assumption.
  destruct H1 as [H1 _], H2 as [H2 _]. unfold encodedBytes in Heq.
  repeat match type of Heq with
         | context [?a <=? ?b] => destruct (Z.leb_spec a b)
         end; simplify_eq; dlia.
Qed.

Lemma string_of_bytes_inj s1 s2 : bytes s1 = bytes s2 -> s1 = s2.
Proof.
  revert s2. induction s1 as [|c1 t1 IH]; intros [|c2 t2]; simpl; try done.
  intros Heq. injection Heq as Hc Ht. f_equal; [|by apply IH].
  rewrite <- (zbyte_byteZ c1), <- (zbyte_byteZ c2). by rewrite Hc.
Qed.

Lemma EncodeRune_stringOfBytes r :
  validRune r -> utf8.EncodeRune r = stringOfBytes (encodedBytes r).
Proof.
  intros Hv. apply string_of_bytes_inj. rewrite EncodeRune_bytes by done.
  destruct Hv as [Hr _]. unfold utf8.MaxRune in Hr. unfold encodedBytes.
  repeat match goal with
         | |- context [?a <=? ?b] => destruct (Z.leb_spec a b)
         end; cbn [stringOfBytes fold_right bytes];
    repeat (rewrite byteZ_zbyte by dlia); reflexivity.
Qed.

Lemma DecodeRune_EncodeRune r :
  validRune r ->
  utf8.DecodeRuneInString (utf8.EncodeRune r)
  = (r, String.length (utf8.EncodeRune r)).
Proof.
  intros Hv. rewrite EncodeRune_stringOfBytes by done.
  destruct Hv as [Hr Hs].
  unfold utf8.MaxRune, utf8.surrogateMin, utf8.surrogateMax in *.
  unfold encodedBytes.
  repeat match goal with
         | |- context [?a <=? ?b] => destruct (Z.leb_spec a b)
         end; cbn [stringOfBytes fold_right];
    unfold utf8.DecodeRuneInString; cbn [byteAt String.length];
    repeat (rewrite byteZ_zbyte by dlia);
    unfold utf8.first, utf8.RuneSelf, utf8.RuneError, utf8.locb, utf8.hicb,
      utf8.mask2, utf8.mask3, utf8.mask4, utf8.maskx;
    repeat match goal with
           | |- context [?a <=? ?b] => destruct (Z.leb_spec a b); try dlia
           | |- context [?a <? ?b] => destruct (Z.ltb_spec a b); try dlia
           | |- context [?a =? ?b] => destruct (Z.eqb_spec a b); try dlia
           end; cbn [orb andb Nat.ltb Nat.leb];
    rewrite ?decode2, ?decode3, ?decode4; f_equal; dlia.
Qed.

Lemma skip_all t : skip t (String.length t) = EmptyString.
Proof. induction t as [|c t IH]; simpl; done. Qed.

Lemma runes_EncodeRune r : validRune r -> runes (utf8.EncodeRune r) = [r].
Proof.
  intros Hv. pose proof (DecodeRune_EncodeRune r Hv) as Hd.
  destruct (utf8.EncodeRune r) as [|c t] eqn:He.
  - unfold utf8.EncodeRune, utf8.encode3 in He. repeat case_match; discriminate.
  - cbn [runes]. rewrite Hd. cbn [String.length Nat.pred].
    by rewrite skip_all.
Qed.

(** ** The loop of [checkPalindrome] *)

Lemma palindromeLoop_body rs i j :
  palindromeLoop rs i j =
  if Z_lt_dec i j then
    match index rs i, index rs j with
    | Some a, Some b =>
      if negb (a =? b) then Some false else palindromeLoop rs (i + 1) (j - 1)
    | _, _ => None
    end
  else Some true.
Proof.
  rewrite palindromeLoop_equation_1. destruct (Z_lt_dec i j); reflexivity.
Qed.

Lemma index_app_mid (pre mid post : list Z) k x :
  mid !! k = Some x ->
  index (pre ++ mid ++ post) (Z.of_nat (length pre + k)) = Some x.
Proof.
  intros H. unfold index.
  destruct (Z.ltb_spec (Z.of_nat (length pre + k)) 0); [lia|].
  rewrite Nat2Z.id. rewrite lookup_app_r by lia.
  replace (length pre + k - length pre)%nat with k by lia.
  rewrite lookup_app_l; [exact H|]. by eapply lookup_lt_Some.
Qed.

Lemma last_case {A} (l : list A) : l = [] \/ exists l' x, l = l' ++ [x].
Proof. induction l using rev_ind; eauto. Qed.

Lemma palindromeLoop_spec n : forall (mid pre post : list Z),
  length mid = n ->
  palindromeLoop (pre ++ mid ++ post) (Z.of_nat (length pre))
                 (Z.of_nat (length pre + length mid) - 1)
  = Some (bool_decide (mid = rev mid)).
Proof.
  induction (lt_wf n) as [n _ IH]. intros mid pre post Hn.
  rewrite palindromeLoop_body.
  destruct mid as [|a rest].
  { destruct (Z_lt_dec _ _); [simpl in *; lia|]. reflexivity. }
  destruct (last_case (a :: rest)) as [?|(front & b & Hfb)]; [done|].
  destruct front as [|a' mid'].
  { simpl in Hfb. simplify_eq. destruct (Z_lt_dec _ _); [simpl in *; lia|].
    f_equal. symmetry. by apply bool_decide_eq_true. }
  simpl in Hfb. injection Hfb as <- ->.
  destruct (Z_lt_dec _ _) as [_|Hge];
    [|rewrite length_cons, length_app in Hge; simpl in Hge; lia].
  rewrite <- (Nat.add_0_r (length pre)) at 1.
  rewrite (index_app_mid pre (a :: mid' ++ [b]) post 0 a) by reflexivity.
  replace (Z.of_nat (length pre + length (a :: mid' ++ [b])) - 1)
    with (Z.of_nat (length pre + S (length mid'))).
  2:{ rewrite length_cons, length_app. simpl. lia. }
  rewrite (index_app_mid pre (a :: mid' ++ [b]) post (S (length mid')) b).
  2:{ simpl. rewrite lookup_app_r by lia. by rewrite Nat.sub_diag. }
  destruct (Z.eqb_spec a b) as [->|Hne]; cbn [negb].
  - assert (Hlt : (length mid' < n)%nat)
      by (subst n; rewrite length_cons, length_app; simpl; lia).
    pose proof (IH (length mid') Hlt mid' (pre ++ [b]) (b :: post) eq_refl) as IH'.
    replace ((pre ++ [b]) ++ mid' ++ b :: post)
      with (pre ++ (b :: mid' ++ [b]) ++ post) in IH'
      by (rewrite <- !app_assoc; simpl; by rewrite <- app_assoc).
    rewrite length_app in IH'. change (length [b]) with 1%nat in IH'.
    replace (Z.of_nat (length pre) + 1) with (Z.of_nat (length pre + 1)) by lia.
    replace (Z.of_nat (length pre + S (length mid')) - 1)
      with (Z.of_nat (length pre + 1 + length mid') - 1) by lia.
    rewrite IH'.
    f_equal. apply bool_decide_ext.
    simpl. rewrite rev_app_distr. simpl. split.
    + intros H. by rewrite <- H.
    + intros H. injection H as H. by apply app_inv_tail in H.
  - f_equal. symmetry. apply bool_decide_eq_false.
    simpl. rewrite rev_app_distr. simpl. congruence.
Qed.

Lemma palindromeRun_spec rs : palindromeRun rs = Some (bool_decide (rs = rev rs)).
Proof.
  unfold palindromeRun.
  pose proof (palindromeLoop_spec (length rs) rs [] [] eq_refl) as H.
  simpl in H. by rewrite app_nil_r in H.
Qed.

(** ** The two counting functions *)

Section Counting.
Context `{CaseRanges}.

Lemma counted_spec r : counted r = true <-> r <> 32 /\ r <> 9 /\ r <> 10.
Proof. unfold counted. lia. Qed.

Lemma fold_counted {M} (f : M -> rune -> M) (l : list rune) (acc : M) :
  fold_left (fun m r => if counted r then f m r else m) l acc
  = fold_left f (filter (fun r => r <> 32 /\ r <> 9 /\ r <> 10) l) acc.
Proof.
  revert acc. induction l as [|r l IH]; intros acc; [done|].
  cbn [fold_left]. rewrite filter_cons.
  destruct (decide _) as [Hd|Hd].
  - apply counted_spec in Hd. rewrite Hd. cbn [fold_left]. apply IH.
  - destruct (counted r) eqn:Hc; [by apply counted_spec in Hc|]. apply IH.
Qed.

Lemma charSet_dom (l : list rune) (acc : gmap Z bool) :
  dom (fold_left (fun (m : gmap Z bool) r => <[r := true]> m) l acc)
  = list_to_set l ∪ dom acc.
Proof.
  revert acc. induction l as [|r l IH]; intros acc; cbn [fold_left].
  - cbn. by rewrite union_empty_l_L.
  - rewrite IH, dom_insert_L. cbn [list_to_set foldr].
    by rewrite union_assoc_L, (union_comm_L (list_to_set l)).
Qed.

Lemma countUniqueCharacters_distinct s :
  countUniqueCharacters s = Z.of_nat (length (remove_dups (countedRunes s))).
Proof.
  unfold countUniqueCharacters, charSetOf, countedRunes.
  rewrite fold_counted. f_equal.
  rewrite <- size_dom, charSet_dom, dom_empty_L, union_empty_r_L.
  rewrite <- (size_list_to_set (C := gset Z) (remove_dups _)) by apply NoDup_remove_dups.
  f_equal. apply set_eq. intros r.
  by rewrite !elem_of_list_to_set, elem_of_remove_dups.
Qed.

(** [freqMap[k]++] repeated over a list of keys. *)
Lemma increment_fold_lookup (ks : list string) (acc : gmap string Z) (k : string) :
  fold_left increment ks acc !! k
  = match acc !! k, length (filter (eq k) ks) with
    | None, O => None
    | o, n => Some (default 0 o + Z.of_nat n)
    end.
Proof.
  revert acc. induction ks as [|k0 ks IH]; intros acc; cbn [fold_left].
  - cbn. destruct (acc !! k); cbn; f_equal; lia.
  - rewrite IH, filter_cons. unfold increment.
    destruct (decide (k = k0)) as [<-|Hne].
    + rewrite lookup_insert_eq. cbn [length].
      destruct (acc !! k); cbn [default]; unfold id; f_equal; lia.
    + rewrite lookup_insert_ne by done. reflexivity.
Qed.

Lemma fold_left_fmap {A B C} (f : A -> C -> A) (g : B -> C) (l : list B) (a : A) :
  fold_left (fun acc x => f acc (g x)) l a = fold_left f (g <$> l) a.
Proof. revert a. induction l; intros; cbn; auto. Qed.

Lemma buildCharacterFrequencyMap_fold s :
  buildCharacterFrequencyMap s
  = fold_left increment (utf8.EncodeRune <$> countedRunes s) ∅.
Proof.
  unfold buildCharacterFrequencyMap, countedRunes.
  rewrite (fold_counted (fun m r => increment m (utf8.EncodeRune r))).
  apply (fold_left_fmap increment utf8.EncodeRune).
Qed.

Lemma countedRunes_valid s : Forall validRune (countedRunes s).
Proof.
  unfold countedRunes. apply Forall_forall. intros r Hr.
  apply list_elem_of_filter in Hr as [_ Hr].
  pose proof (runes_valid (ToLower s)) as Hv. rewrite Forall_forall in Hv. auto.
Qed.

Lemma filter_encoded (l : list rune) (r : rune) :
  Forall validRune l -> validRune r ->
  length (filter (eq (utf8.EncodeRune r)) (utf8.EncodeRune <$> l))
  = length (filter (eq r) l).
Proof.
  intros Hl Hr. induction Hl as [|x l Hx Hl IH]; [done|].
  rewrite fmap_cons, !filter_cons.
  destruct (decide (r = x)) as [->|Hne].
  - rewrite decide_True by done. cbn. by rewrite IH.
  - rewrite decide_False; [done|]. intros Heq. apply Hne.
    by apply EncodeRune_inj.
Qed.

Lemma frequency_of_counted s r :
  r ∈ countedRunes s ->
  buildCharacterFrequencyMap s !! utf8.EncodeRune r
  = Some (Z.of_nat (length (filter (eq r) (countedRunes s)))).
Proof.
  intros Hin. pose proof (countedRunes_valid s) as Hv.
  assert (Hr : validRune r) by (rewrite Forall_forall in Hv; auto).
  rewrite buildCharacterFrequencyMap_fold, increment_fold_lookup, lookup_empty.
  rewrite filter_encoded by done.
  destruct (length (filter (eq r) (countedRunes s))) eqn:Hl; [|cbn; f_equal; lia].
  exfalso. apply length_zero_iff_nil in Hl.
  assert (r ∈ filter (eq r) (countedRunes s)) as Hin' by (by apply list_elem_of_filter).
  rewrite Hl in Hin'. by apply not_elem_of_nil in Hin'.
Qed.

Lemma frequency_key s k :
  is_Some (buildCharacterFrequencyMap s !! k) ->
  exists r, r ∈ countedRunes s /\ k = utf8.EncodeRune r.
Proof.
  rewrite buildCharacterFrequencyMap_fold, increment_fold_lookup, lookup_empty.
  destruct (filter (eq k) (utf8.EncodeRune <$> countedRunes s)) as [|k' l] eqn:Hf.
  - cbn. by intros [? ?].
  - intros _. assert (k' ∈ filter (eq k) (utf8.EncodeRune <$> countedRunes s)) as Hin
      by (rewrite Hf; left).
    apply list_elem_of_filter in Hin as [<- Hin].
    apply list_elem_of_fmap in Hin as (r & -> & Hin). eauto.
Qed.

Lemma sumValues_insert (m : gmap string Z) k v :
  m !! k = None -> sumValues (<[k := v]> m) = v + sumValues m.
Proof.
  intros Hk. unfold sumValues. apply (map_fold_insert_L (fun _ v acc => v + acc)); [|done].
  intros. lia.
Qed.

Lemma sumValues_increment (m : gmap string Z) k :
  sumValues (increment m k) = sumValues m + 1.
Proof.
  unfold increment. destruct (m !! k) as [v|] eqn:Hk; cbn [default]; unfold id.
  - rewrite <- insert_delete_eq.
    rewrite sumValues_insert by apply lookup_delete_eq.
    rewrite <- (insert_delete_id m k v Hk) at 2.
    rewrite sumValues_insert by apply lookup_delete_eq. lia.
  - rewrite sumValues_insert by done. lia.
Qed.

Lemma sumValues_fold (ks : list string) (acc : gmap string Z) :
  sumValues (fold_left increment ks acc) = sumValues acc + Z.of_nat (length ks).
Proof.
  revert acc. induction ks as [|k ks IH]; intros acc; cbn [fold_left length].
  - lia.
  - rewrite IH, sumValues_increment. lia.
Qed.

Lemma increment_fold_dom (ks : list string) (acc : gmap string Z) :
  dom (fold_left increment ks acc) = list_to_set ks ∪ dom acc.
Proof.
  revert acc. induction ks as [|k ks IH]; intros acc; cbn [fold_left].
  - cbn. by rewrite union_empty_l_L.
  - rewrite IH. unfold increment. rewrite dom_insert_L. cbn [list_to_set foldr].
    by rewrite union_assoc_L, (union_comm_L (list_to_set ks)).
Qed.

Lemma size_frequency s :
  size (buildCharacterFrequencyMap s) = length (remove_dups (countedRunes s)).
Proof.
  rewrite buildCharacterFrequencyMap_fold, <- size_dom, increment_fold_dom.
  rewrite dom_empty_L, union_empty_r_L.
  assert (list_to_set (utf8.EncodeRune <$> countedRunes s)
          = (list_to_set (utf8.EncodeRune <$> remove_dups (countedRunes s)) : gset string))
    as ->.
  { apply set_eq. intros k. rewrite !elem_of_list_to_set, !list_elem_of_fmap.
    by setoid_rewrite elem_of_remove_dups. }
  rewrite size_list_to_set, length_fmap; [done|].
  apply NoDup_fmap_2_strong; [|apply NoDup_remove_dups].
  intros x y Hx Hy. rewrite elem_of_remove_dups in Hx, Hy.
  pose proof (countedRunes_valid s) as Hv. rewrite Forall_forall in Hv.
  apply EncodeRune_inj; auto.
Qed.

End Counting.

(** ** Strings and the regular expressions of the translator *)

Lemma sapp_nil_l (b : string) : "" +:+ b = b.
Proof. reflexivity. Qed.

Lemma sapp_cons x (a b : string) : String x a +:+ b = String x (a +:+ b).
Proof. reflexivity. Qed.

Ltac sapp := repeat first [rewrite sapp_nil_l | rewrite sapp_cons].
Ltac sapp_in H := repeat first [rewrite sapp_nil_l in H | rewrite sapp_cons in H].

Lemma sapp_assoc (a b c : string) : (a +:+ b) +:+ c = a +:+ b +:+ c.
Proof. induction a as [|x a IH]; sapp; [done|]. by rewrite IH. Qed.

Lemma sapp_nil_r (a : string) : a +:+ "" = a.
Proof. induction a as [|x a IH]; sapp; [done|]. by rewrite IH. Qed.

Lemma sapp_length (a b : string) :
  String.length (a +:+ b) = (String.length a + String.length b)%nat.
Proof. induction a as [|x a IH]; sapp; cbn [String.length]; [done|]. by rewrite IH. Qed.

Lemma sapp_inv_head (a b c : string) : a +:+ b = a +:+ c -> b = c.
Proof.
  induction a as [|x a IH]; sapp; [done|]. intros Heq. injection Heq as Heq. auto.
Qed.

Lemma HasPrefix_spec s p :
  strings.HasPrefix s p = true <-> exists rest, s = p +:+ rest.
Proof.
  revert s. induction p as [|a p IH]; intros s; cbn [strings.HasPrefix]; sapp.
  - split; [intros _; by exists s|done].
  - destruct s as [|b s]; [split; [done|by intros [? ?]]|].
    destruct (Ascii.eqb_spec a b) as [->|Hne]; cbn [andb].
    + rewrite IH. split; intros [rest Hr]; exists rest.
      * sapp. by rewrite Hr.
      * sapp_in Hr. by injection Hr.
    + split; [done|]. intros [rest Hr]. sapp_in Hr. congruence.
Qed.

Lemma HasPrefix_app p rest : strings.HasPrefix (p +:+ rest) p = true.
Proof. apply HasPrefix_spec. eauto. Qed.

Lemma skip_app p rest : skip (p +:+ rest) (String.length p) = rest.
Proof.
  induction p as [|a p IH]; sapp; cbn [String.length skip]; [by destruct rest|]. exact IH.
Qed.

Lemma Contains_spec s sub : strings.Contains s sub = true <-> substringOf sub s.
Proof.
  unfold substringOf. induction s as [|c s IH]; cbn [strings.Contains].
  - rewrite HasPrefix_spec. split.
    + intros [rest Hr]. exists "", rest. done.
    + intros (pre & post & Hs). destruct pre; [|done]. sapp_in Hs. eauto.
  - rewrite orb_true_iff, HasPrefix_spec, IH. split.
    + intros [[rest Hr]|(pre & post & Hs)].
      * exists "", rest. done.
      * exists (String c pre), post. sapp. by rewrite Hs.
    + intros (pre & post & Hs). destruct pre as [|c' pre].
      * left. sapp_in Hs. eauto.
      * right. sapp_in Hs. injection Hs as -> Hs. eauto.
Qed.

Lemma Contains_false s sub : strings.Contains s sub = false <-> ~ substringOf sub s.
Proof. rewrite <- Contains_spec. by destruct (strings.Contains s sub). Qed.

(** [\d+] *)
Lemma takeDigits_split s :
  exists post, s = regexp.takeDigits s +:+ post /\
               fmt.allDigits (regexp.takeDigits s) = true /\
               match post with String c _ => fmt.isDigit c = false | EmptyString => True end.
Proof.
  induction s as [|c s (post & Hs & Hd & Hp)]; cbn [regexp.takeDigits].
  - exists "". done.
  - destruct (fmt.isDigit c) eqn:Hc.
    + exists post. sapp. cbn [fmt.allDigits]. rewrite Hc, Hd. by rewrite <- Hs.
    + exists (String c s). done.
Qed.

Lemma takeDigits_run ds post : digitRun ds post -> regexp.takeDigits (ds +:+ post) = ds.
Proof.
  intros (_ & Hd & Hp). induction ds as [|c ds IH]; sapp.
  - destruct post as [|c post]; cbn; [done|]. by rewrite Hp.
  - cbn in Hd. apply andb_true_iff in Hd as [Hc Hd].
    cbn [regexp.takeDigits]. rewrite Hc. by rewrite IH.
Qed.

Lemma digitsAt_spec lit s ds :
  regexp.digitsAt lit s = Some ds <->
  exists post, s = lit +:+ ds +:+ post /\ digitRun ds post.
Proof.
  unfold regexp.digitsAt. split.
  - destruct (strings.HasPrefix s lit) eqn:Hp; [|done].
    apply HasPrefix_spec in Hp as [rest ->]. rewrite skip_app.
    destruct (takeDigits_split rest) as (post & Hr & Hd & Hpost).
    destruct (regexp.takeDigits rest) as [|c t] eqn:Ht; [done|].
    intros [= <-]. exists post. by rewrite <- Hr.
  - intros (post & -> & Hrun). rewrite HasPrefix_app, skip_app.
    rewrite (takeDigits_run _ _ Hrun). destruct Hrun as (Hne & _). by destruct ds.
Qed.

Lemma findDigits_Some lit s ds :
  regexp.findDigits lit s = Some ds <-> exists pre post, leftmostMatch lit s pre ds post.
Proof.
  revert ds. induction s as [|c s IH]; intros ds; cbn [regexp.findDigits].
  - destruct (regexp.digitsAt lit "") as [ds0|] eqn:Hat.
    + apply digitsAt_spec in Hat as (post & Hs & Hrun). split.
      * intros [= <-]. exists "", post. split; [by split|]. intros. cbn. lia.
      * intros (pre & post' & [Hs' Hrun'] & Hleft).
        destruct pre; [|done]. sapp_in Hs'.
        rewrite Hs in Hs' at 1. apply sapp_inv_head in Hs'.
        f_equal. rewrite <- (takeDigits_run _ _ Hrun), <- (takeDigits_run _ _ Hrun').
        by rewrite Hs'.
    + split; [done|]. intros (pre & post & [Hs Hrun] & _).
      destruct pre; [|done]. sapp_in Hs.
      assert (regexp.digitsAt lit "" = Some ds) as Hc by (apply digitsAt_spec; eauto).
      congruence.
  - destruct (regexp.digitsAt lit (String c s)) as [ds0|] eqn:Hat.
    + apply digitsAt_spec in Hat as (post & Hs & Hrun). split.
      * intros [= <-]. exists "", post. split; [by split|]. intros. cbn. lia.
      * intros (pre & post' & [Hs' Hrun'] & Hleft).
        specialize (Hleft "" ds0 post (conj Hs Hrun)).
        destruct pre; [|cbn in Hleft; lia]. sapp_in Hs'.
        rewrite Hs in Hs' at 1. apply sapp_inv_head in Hs'.
        f_equal. rewrite <- (takeDigits_run _ _ Hrun), <- (takeDigits_run _ _ Hrun').
        by rewrite Hs'.
    + rewrite IH. split.
      * intros (pre & post & [Hs Hrun] & Hleft). exists (String c pre), post.
        split; [split; [sapp; by rewrite Hs|done]|].
        intros pre' ds' post' [Hs' Hrun'].
        destruct pre' as [|c' pre'].
        { sapp_in Hs'.
          assert (regexp.digitsAt lit (String c s) = Some ds') as Hc
            by (apply digitsAt_spec; eauto).
          congruence. }
        sapp_in Hs'. injection Hs' as -> Hs'.
        specialize (Hleft pre' ds' post' (conj Hs' Hrun')). cbn. lia.
      * intros (pre & post & [Hs Hrun] & Hleft).
        destruct pre as [|c' pre].
        { sapp_in Hs.
          assert (regexp.digitsAt lit (String c s) = Some ds) as Hc
            by (apply digitsAt_spec; eauto).
          congruence. }
        sapp_in Hs. injection Hs as -> Hs.
        exists pre, post. split; [by split|].
        intros pre' ds' post' [Hs' Hrun'].
        assert (matchAt lit (String c' s) (String c' pre') ds' post') as Hm
          by (split; [sapp; by rewrite <- Hs'|done]).
        specialize (Hleft _ _ _ Hm). cbn in Hleft. lia.
Qed.

Lemma findDigits_None lit s :
  regexp.findDigits lit s = None <-> ~ exists pre ds post, matchAt lit s pre ds post.
Proof.
  induction s as [|c s IH]; cbn [regexp.findDigits].
  - destruct (regexp.digitsAt lit "") as [ds0|] eqn:Hat.
    + apply digitsAt_spec in Hat as (post & Hs & Hrun). split; [done|].
      intros Hno. exfalso. apply Hno. exists "", ds0, post. by split.
    + split; [|done]. intros _ (pre & ds & post & Hs & Hrun).
      destruct pre; [|done]. sapp_in Hs.
      assert (regexp.digitsAt lit "" = Some ds) as Hc by (apply digitsAt_spec; eauto).
      congruence.
  - destruct (regexp.digitsAt lit (String c s)) as [ds0|] eqn:Hat.
    + apply digitsAt_spec in Hat as (post & Hs & Hrun). split; [done|].
      intros Hno. exfalso. apply Hno. exists "", ds0, post. by split.
    + rewrite IH. split; intros Hno (pre & ds & post & Hs & Hrun); apply Hno.
      * destruct pre as [|c' pre].
        { sapp_in Hs.
          assert (regexp.digitsAt lit (String c s) = Some ds) as Hc
            by (apply digitsAt_spec; eauto).
          congruence. }
        sapp_in Hs. injection Hs as -> Hs. exists pre, ds, post. by split.
      * exists (String c pre), ds, post. split; [sapp; by rewrite Hs|done].
Qed.

Lemma skip_app_n p rest n : n = String.length p -> skip (p +:+ rest) n = rest.
Proof. intros ->. apply skip_app. Qed.

Ltac in_list := apply list_elem_of_In; cbn; tauto.

(** The character pattern *)
Lemma orElse_Some {A} (a b : option A) x :
  regexp.orElse a b = Some x -> a = Some x \/ b = Some x.
Proof. destruct a; cbn; auto. Qed.

Lemma orElse_is_Some_l {A} (a b : option A) : is_Some a -> is_Some (regexp.orElse a b).
Proof. by intros [x ->]. Qed.

Lemma orElse_is_Some_r {A} (a b : option A) : is_Some b -> is_Some (regexp.orElse a b).
Proof. destruct a; cbn; eauto. Qed.

Lemma quotedLetter_sound s x :
  regexp.quotedLetter s = Some x ->
  exists q post, s = q +:+ String x post /\ q ∈ [""; "'"] /\ regexp.isLowerLetter x = true.
Proof.
  unfold regexp.quotedLetter. intros Hq. apply orElse_Some in Hq as [Hq|Hq].
  - destruct s as [|q [|c post]]; try done.
    destruct (Ascii.eqb_spec q "'"%char) as [->|]; [|done]. cbn [andb] in Hq.
    destruct (regexp.isLowerLetter c) eqn:Hc; [|done]. injection Hq as <-.
    exists "'", post. split; [done|]. split; [in_list|done].
  - destruct s as [|c post]; [done|].
    destruct (regexp.isLowerLetter c) eqn:Hc; [|done]. injection Hq as <-.
    exists "", post. split; [done|]. split; [in_list|done].
Qed.

Lemma quotedLetter_complete q x post :
  q ∈ [""; "'"] -> regexp.isLowerLetter x = true ->
  is_Some (regexp.quotedLetter (q +:+ String x post)).
Proof.
  intros Hq Hx. unfold regexp.quotedLetter.
  apply list_elem_of_In in Hq. cbn in Hq. destruct Hq as [<-|[<-|[]]]; sapp.
  - apply orElse_is_Some_r. rewrite Hx. eauto.
  - apply orElse_is_Some_l. rewrite Hx. cbn. eauto.
Qed.

Lemma afterWord_sound w s x :
  regexp.afterWord w s = Some x ->
  exists q post, s = w +:+ q +:+ String x post /\ q ∈ [""; "'"]
                 /\ regexp.isLowerLetter x = true.
Proof.
  unfold regexp.afterWord. destruct (strings.HasPrefix s w) eqn:Hp; [|done].
  apply HasPrefix_spec in Hp as [rest ->]. rewrite skip_app.
  intros (q & post & -> & Hq & Hx)%quotedLetter_sound. eauto.
Qed.

Lemma afterWord_complete w q x post :
  q ∈ [""; "'"] -> regexp.isLowerLetter x = true ->
  is_Some (regexp.afterWord w (w +:+ q +:+ String x post)).
Proof.
  intros Hq Hx. unfold regexp.afterWord. rewrite HasPrefix_app, skip_app.
  by apply quotedLetter_complete.
Qed.

Lemma afterKeyword_sound s x :
  regexp.afterKeyword s = Some x ->
  exists opt q post,
    s = " " +:+ opt +:+ q +:+ String x post /\
    opt ∈ [""; "the "; "letter "; "character "] /\ q ∈ [""; "'"] /\
    regexp.isLowerLetter x = true.
Proof.
  unfold regexp.afterKeyword. destruct s as [|sp rest]; [done|].
  destruct (Ascii.eqb_spec sp " "%char) as [->|]; [|done].
  intros Hk.
  apply orElse_Some in Hk as [Hk|Hk]; [|apply orElse_Some in Hk as [Hk|Hk];
    [|apply orElse_Some in Hk as [Hk|Hk]]].
  - apply afterWord_sound in Hk as (q & post & -> & Hq & Hx).
    exists "the ", q, post. split; [done|]. split; [in_list|done].
  - apply afterWord_sound in Hk as (q & post & -> & Hq & Hx).
    exists "letter ", q, post. split; [done|]. split; [in_list|done].
  - apply afterWord_sound in Hk as (q & post & -> & Hq & Hx).
    exists "character ", q, post. split; [done|]. split; [in_list|done].
  - apply quotedLetter_sound in Hk as (q & post & -> & Hq & Hx).
    exists "", q, post. split; [done|]. split; [in_list|done].
Qed.

Lemma afterKeyword_complete opt q x post :
  opt ∈ [""; "the "; "letter "; "character "] -> q ∈ [""; "'"] ->
  regexp.isLowerLetter x = true ->
  is_Some (regexp.afterKeyword (" " +:+ opt +:+ q +:+ String x post)).
Proof.
  intros Ho Hq Hx. sapp. cbn [regexp.afterKeyword Ascii.eqb Bool.eqb].
  apply list_elem_of_In in Ho. cbn in Ho.
  destruct Ho as [<-|[<-|[<-|[<-|[]]]]].
  - sapp. do 3 apply orElse_is_Some_r. by apply quotedLetter_complete.
  - apply orElse_is_Some_l. by apply afterWord_complete.
  - apply orElse_is_Some_r, orElse_is_Some_l. by apply afterWord_complete.
  - do 2 apply orElse_is_Some_r. apply orElse_is_Some_l. by apply afterWord_complete.
Qed.

Lemma charAt_sound s x : regexp.charAt s = Some x -> charMatch s "" x.
Proof.
  unfold regexp.charAt, charMatch. intros Hc.
  apply orElse_Some in Hc as [Hc|Hc].
  - destruct (strings.HasPrefix s "contain") eqn:Hp; [|done].
    apply HasPrefix_spec in Hp as [rest ->].
    rewrite (skip_app_n "contain" rest 7 eq_refl) in Hc.
    apply afterKeyword_sound in Hc as (opt & q & post & -> & Ho & Hq & Hx).
    exists "contain", opt, q, post. split; [done|]. split; [in_list|done].
  - destruct (strings.HasPrefix s "with") eqn:Hp; [|done].
    apply HasPrefix_spec in Hp as [rest ->].
    rewrite (skip_app_n "with" rest 4 eq_refl) in Hc.
    apply afterKeyword_sound in Hc as (opt & q & post & -> & Ho & Hq & Hx).
    exists "with", opt, q, post. split; [done|]. split; [in_list|done].
Qed.

Lemma charAt_complete s x : charMatch s "" x -> is_Some (regexp.charAt s).
Proof.
  intros (kw & opt & q & post & -> & Hk & Ho & Hq & Hx).
  unfold regexp.charAt. apply list_elem_of_In in Hk. cbn in Hk.
  destruct Hk as [<-|[<-|[]]].
  - apply orElse_is_Some_l. rewrite sapp_nil_l.
    rewrite (HasPrefix_app "contain"), (skip_app_n "contain" _ 7 eq_refl).
    by apply afterKeyword_complete.
  - apply orElse_is_Some_r. rewrite sapp_nil_l.
    rewrite (HasPrefix_app "with"), (skip_app_n "with" _ 4 eq_refl).
    by apply afterKeyword_complete.
Qed.

Lemma charMatch_cons c s pre x : charMatch (String c s) (String c pre) x <-> charMatch s pre x.
Proof.
  unfold charMatch. split; intros (kw & opt & q & post & Hs & Hrest);
    exists kw, opt, q, post; (split; [|done]).
  - sapp_in Hs. by injection Hs.
  - sapp. by rewrite Hs.
Qed.

Lemma charMatch_head c c' s pre x : charMatch (String c s) (String c' pre) x -> c = c'.
Proof.
  intros (kw & opt & q & post & Hs & _). sapp_in Hs. by injection Hs.
Qed.

Lemma findChar_None s :
  regexp.findChar s = None <-> ~ exists pre x, charMatch s pre x.
Proof.
  induction s as [|c s IH]; cbn [regexp.findChar].
  - destruct (regexp.charAt "") as [x|] eqn:Hat; [done|].
    split; [|done]. intros _ (pre & x & Hm).
    destruct pre as [|c pre].
    + apply charAt_complete in Hm as [? ?]. congruence.
    + destruct Hm as (kw & opt & q & post & Hs & _). sapp_in Hs. done.
  - destruct (regexp.charAt (String c s)) as [x|] eqn:Hat.
    + split; [done|]. intros Hno. exfalso. apply Hno.
      exists "", x. by apply charAt_sound.
    + rewrite IH. split; intros Hno (pre & x & Hm); apply Hno.
      * destruct pre as [|c' pre].
        { apply charAt_complete in Hm as [? ?]. congruence. }
        pose proof (charMatch_head _ _ _ _ _ Hm) as <-.
        apply charMatch_cons in Hm. eauto.
      * exists (String c pre), x. by apply charMatch_cons.
Qed.

(** ** The digest *)

Lemma hexdigit_lower n : 0 <= n < 16 -> isLowerHex (fmt.hexdigit n) = true.
Proof.
  intros Hn. unfold isLowerHex, fmt.hexdigit.
  destruct (Z.ltb_spec n 10); rewrite byteZ_zbyte by lia; lia.
Qed.

Lemma Sprintf_x_length b : String.length (fmt.Sprintf_x b) = (2 * length b)%nat.
Proof. induction b as [|x b IH]; cbn [fmt.Sprintf_x String.length length]; lia. Qed.

Lemma Sprintf_x_lower b : allLowerHex (fmt.Sprintf_x b) = true.
Proof.
  induction b as [|x b IH]; [done|]. cbn [fmt.Sprintf_x allLowerHex].
  rewrite !hexdigit_lower by dlia. done.
Qed.

Lemma Sum256_length data : length (sha256.Sum256 data) = 32%nat.
Proof. unfold sha256.Sum256. cbn zeta. rewrite !length_app. reflexivity. Qed.

Lemma calculateSHA256_format s :
  String.length (calculateSHA256 s) = 64%nat /\ allLowerHex (calculateSHA256 s) = true.
Proof.
  unfold calculateSHA256. rewrite Sprintf_x_length, Sum256_length, Sprintf_x_lower. done.
Qed.

Lemma len_zero s : len s = 0 <-> s = EmptyString.
Proof. unfold len. destruct s; cbn; split; (done || lia). Qed.

(** ** Sorting *)

Lemma insertSorted_perm {A} (less : A -> A -> bool) x l :
  insertSorted less x l ≡ₚ x :: l.
Proof.
  induction l as [|y l IH]; cbn; [done|].
  destruct (less x y); [done|]. rewrite IH. apply Permutation_swap.
Qed.

Lemma insertionSort_perm_acc {A} (less : A -> A -> bool) l acc :
  fold_left (fun acc x => insertSorted less x acc) l acc ≡ₚ l ++ acc.
Proof.
  revert acc. induction l as [|x l IH]; intros acc; cbn [fold_left]; [done|].
  rewrite IH, insertSorted_perm. cbn. by rewrite Permutation_middle.
Qed.

Lemma notAfter_le x y : notAfter x y <-> CreatedAt x <= CreatedAt y.
Proof. unfold notAfter, createdBefore. lia. Qed.

Lemma insertSorted_sorted x l :
  StronglySorted notAfter l -> StronglySorted notAfter (insertSorted createdBefore x l).
Proof.
  induction 1 as [|y l Hl IH Hy]; cbn [insertSorted]; [repeat constructor|].
  destruct (createdBefore x y) eqn:Hxy.
  - constructor; [by constructor|]. constructor.
    + apply notAfter_le. unfold createdBefore in Hxy. lia.
    + eapply Forall_impl; [exact Hy|]. intros z Hz. apply notAfter_le.
      apply notAfter_le in Hz. unfold createdBefore in Hxy. lia.
  - constructor; [done|].
    rewrite (insertSorted_perm createdBefore x l). constructor; [exact Hxy|done].
Qed.

Lemma insertionSort_sorted l : StronglySorted notAfter (insertionSort createdBefore l).
Proof.
  unfold insertionSort.
  assert (forall acc, StronglySorted notAfter acc ->
            StronglySorted notAfter
              (fold_left (fun acc x => insertSorted createdBefore x acc) l acc)) as Hgen.
  { induction l as [|x l IH]; intros acc Hacc; cbn [fold_left]; [done|].
    by apply IH, insertSorted_sorted. }
  apply Hgen. constructor.
Qed.

Lemma insertionSort_sort_Slice l :
  sort_Slice createdBefore l (insertionSort createdBefore l).
Proof.
  split; [|apply insertionSort_sorted].
  unfold insertionSort. by rewrite insertionSort_perm_acc, app_nil_r.
Qed.

(** A sorted list is determined by its elements when the keys differ. *)
Lemma sorted_perm_unique (l l' : list AnalyzedString) :
  StronglySorted notAfter l -> StronglySorted notAfter l' -> l ≡ₚ l' ->
  NoDup (CreatedAt <$> l) -> l = l'.
Proof.
  intros Hl. revert l'. induction Hl as [|x l Hl IH Hx]; intros l' Hl' Hp Hnd.
  - by apply Permutation_nil in Hp.
  - destruct Hl' as [|y l' Hl' Hy].
    { symmetry in Hp. by apply Permutation_nil in Hp. }
    assert (x = y) as <-.
    { assert (x ∈ y :: l') as Hxin by (rewrite <- Hp; left).
      assert (y ∈ x :: l) as Hyin by (rewrite Hp; left).
      apply elem_of_cons in Hxin as [->|Hxin]; [done|].
      apply elem_of_cons in Hyin as [->|Hyin]; [done|].
      rewrite Forall_forall in Hx, Hy.
      pose proof (proj1 (notAfter_le _ _) (Hx _ Hyin)).
      pose proof (proj1 (notAfter_le _ _) (Hy _ Hxin)).
      assert (CreatedAt x = CreatedAt y) as Heq by lia.
      rewrite fmap_cons in Hnd. apply NoDup_cons in Hnd as [Hnin _].
      exfalso. apply Hnin. rewrite Heq. apply list_elem_of_fmap. eauto. }
    f_equal. apply IH; [done|by apply Permutation_cons_inv in Hp|].
    rewrite fmap_cons in Hnd. by apply NoDup_cons in Hnd as [_ ?].
Qed.

(** * The claims *)

(** ** The palindrome test *)

Lemma isPerlSpace_spec c : regexp.isPerlSpace c = bool_decide (c ∈ perlSpaces).
Proof. destruct c as [[] [] [] [] [] [] [] []]; vm_compute; reflexivity. Qed.

Lemma removeSpaceRuns_filter s :
  list_ascii_of_string (regexp.removeSpaceRuns s)
  = filter (fun c => c ∉ perlSpaces) (list_ascii_of_string s).
Proof.
  induction s as [|c s IH]; [done|].
  cbn [regexp.removeSpaceRuns list_ascii_of_string]. rewrite filter_cons.
  rewrite isPerlSpace_spec. destruct (decide (c ∉ perlSpaces)) as [Hn|Hn].
  - rewrite bool_decide_eq_false_2 by done. cbn. by rewrite IH.
  - rewrite bool_decide_eq_true_2; [done|]. by apply dec_stable.
Qed.

Section Palindrome.
Context `{CaseRanges}.

Lemma checkPalindrome_decide s :
  checkPalindrome s = bool_decide (runes (cleaned s) = rev (runes (cleaned s))).
Proof. unfold checkPalindrome. by rewrite palindromeRun_spec. Qed.

(** The loop never reads outside the slice. *)
Lemma palindromeRun_total s :
  palindromeRun (runes (cleaned s)) = Some (checkPalindrome s).
Proof. unfold checkPalindrome. by rewrite palindromeRun_spec. Qed.

(** C1, as amended: [checkPalindrome] answers true exactly when the runes
    of the lower-cased string, from which the bytes tab, line feed, form
    feed, carriage return and space (and only those) were removed, read
    the same in both directions; a string that is empty once stripped is a
    palindrome. *)
Theorem checkPalindrome_spec (s : string) :
  let stripped := regexp.removeSpaceRuns s in
  let folded := runes (ToLower stripped) in
  (checkPalindrome s = true <-> folded = rev folded) /\
  list_ascii_of_string stripped
    = filter (fun c => c ∉ perlSpaces) (list_ascii_of_string s) /\
  (stripped = EmptyString -> checkPalindrome s = true).
Proof.
  cbn zeta. split; [|split].
  - rewrite checkPalindrome_decide. apply bool_decide_eq_true.
  - apply removeSpaceRuns_filter.
  - intros He. rewrite checkPalindrome_decide. apply bool_decide_eq_true.
    unfold cleaned. by rewrite He.
Qed.

End Palindrome.

(** ** The two counting functions *)

Section CountingClaims.
Context `{CaseRanges}.

(** C4: the distinct-character count and the frequency map are both taken
    over the runes of the lower-cased string other than space, tab and
    line feed: the count is the number of distinct such runes, and the
    map sends the one-rune string of each of them to its number of
    occurrences and has no other key. *)
Theorem counting_spec (s : string) :
  let kept := filter (fun r => r <> 32 /\ r <> 9 /\ r <> 10) (runes (ToLower s)) in
  countUniqueCharacters s = Z.of_nat (length (remove_dups kept)) /\
  (forall r, r ∈ kept ->
     buildCharacterFrequencyMap s !! utf8.EncodeRune r
     = Some (Z.of_nat (length (filter (eq r) kept))) /\
     runes (utf8.EncodeRune r) = [r]) /\
  (forall k, is_Some (buildCharacterFrequencyMap s !! k) ->
     exists r, r ∈ kept /\ k = utf8.EncodeRune r).
Proof.
  cbn zeta. fold (countedRunes s). split; [|split].
  - apply countUniqueCharacters_distinct.
  - intros r Hr. split; [by apply frequency_of_counted|].
    apply runes_EncodeRune.
    pose proof (countedRunes_valid s) as Hv. rewrite Forall_forall in Hv. auto.
  - apply frequency_key.
Qed.

(** C10: the distinct-character count is the number of keys of the
    frequency map, and the counts of the map add up to the number of
    runes of the lower-cased string other than space, tab and line feed. *)
Theorem counting_views_agree (s : string) :
  countUniqueCharacters s = Z.of_nat (size (buildCharacterFrequencyMap s)) /\
  sumValues (buildCharacterFrequencyMap s)
  = Z.of_nat (length (filter (fun r => r <> 32 /\ r <> 9 /\ r <> 10)
                             (runes (ToLower s)))).
Proof.
  fold (countedRunes s). split.
  - by rewrite countUniqueCharacters_distinct, size_frequency.
  - rewrite buildCharacterFrequencyMap_fold, sumValues_fold, length_fmap.
    unfold sumValues. by rewrite map_fold_empty.
Qed.

End CountingClaims.

(** ** The filter engine *)

Section Filters.
Context `{CaseRanges}.

(** C6: [matchesFilters] answers true exactly when every predicate that is
    present holds of the record: the palindrome flag is the one asked for,
    the length is at least the minimum and at most the maximum, the word
    count is the one asked for, and the lower-cased character is a key of
    the frequency map.  With no predicate present every record matches. *)
Theorem matchesFilters_spec (analyzed : AnalyzedString) (params : FilterParams) :
  let props := Properties analyzed in
  (matchesFilters analyzed params = true <->
     (forall b, pIsPalindrome params = Some b -> IsPalindrome props = b) /\
     (forall n, pMinLength params = Some n -> Length props >= n) /\
     (forall n, pMaxLength params = Some n -> Length props <= n) /\
     (forall n, pWordCount params = Some n -> WordCount props = n) /\
     (forall c, pContainsCharacter params = Some c ->
                is_Some (CharacterFrequencyMap props !! ToLower c))) /\
  matchesFilters analyzed noFilter = true.
Proof.
  cbn zeta. split; [|reflexivity].
  unfold matchesFilters.
  destruct params as [pal minL maxL wc ch]; cbn [pIsPalindrome pMinLength
    pMaxLength pWordCount pContainsCharacter].
  split.
  - intros Hm. repeat split.
    + intros b [= ->]. destruct (Bool.eqb_spec (IsPalindrome (Properties analyzed)) b);
        [done|cbn in Hm; done].
    + intros n [= ->]. destruct pal as [b|];
        [destruct (Bool.eqb (IsPalindrome (Properties analyzed)) b); [|done]|];
        cbn [negb] in Hm;
        (destruct (Z.ltb_spec (Length (Properties analyzed)) n); [done|lia]).
    + intros n [= ->].
      destruct (Z.gtb_spec (Length (Properties analyzed)) n) as [Hgt|]; [|lia].
      exfalso. repeat (case_match; try done).
    + intros n [= ->].
      destruct (Z.eqb_spec (WordCount (Properties analyzed)) n) as [|Hne]; [done|].
      exfalso. repeat (case_match; try done).
    + intros c [= ->].
      destruct (CharacterFrequencyMap (Properties analyzed) !! ToLower c) eqn:Hl; [eauto|].
      exfalso. repeat (case_match; try done).
  - intros (Hpal & Hmin & Hmax & Hwc & Hch).
    assert (Hp : match pal with
                 | Some b => negb (Bool.eqb (IsPalindrome (Properties analyzed)) b)
                 | None => false
                 end = false).
    { destruct pal as [b|]; [|done]. rewrite (Hpal b eq_refl).
      by rewrite Bool.eqb_reflx. }
    assert (Hn : match minL with
                 | Some n => Length (Properties analyzed) <? n
                 | None => false
                 end = false).
    { destruct minL as [n|]; [|done]. specialize (Hmin n eq_refl). lia. }
    assert (Hx : match maxL with
                 | Some n => Length (Properties analyzed) >? n
                 | None => false
                 end = false).
    { destruct maxL as [n|]; [|done]. specialize (Hmax n eq_refl). lia. }
    assert (Hw : match wc with
                 | Some n => negb (WordCount (Properties analyzed) =? n)
                 | None => false
                 end = false).
    { destruct wc as [n|]; [|done]. specialize (Hwc n eq_refl). lia. }
    rewrite Hp, Hn, Hx, Hw.
    destruct ch as [c|]; [|done].
    destruct (Hch c eq_refl) as [v ->]. done.
Qed.

End Filters.

(** ** The translator *)

Lemma decimal_nonneg s acc : fmt.allDigits s = true -> 0 <= acc -> 0 <= fmt.decimal acc s.
Proof.
  revert acc. induction s as [|c s IH]; intros acc Hd Hacc; cbn in *; [done|].
  apply andb_true_iff in Hd as [Hc Hd]. apply IH; [done|].
  unfold fmt.isDigit in Hc. lia.
Qed.

Lemma Sscanf_d_run ds post v :
  digitRun ds post -> fmt.decimal 0 ds <= fmt.MaxInt ->
  fmt.Sscanf_d ds v = fmt.decimal 0 ds.
Proof.
  intros (Hne & Hd & _) Hmax. unfold fmt.Sscanf_d.
  destruct ds as [|c ds]; [done|]. rewrite Hd. cbn [andb].
  by destruct (Z.leb_spec (fmt.decimal 0 (String c ds)) fmt.MaxInt); [|lia].
Qed.

Lemma wrapInt_small x : fmt.MinInt <= x <= fmt.MaxInt -> fmt.wrapInt x = x.
Proof. unfold fmt.wrapInt, fmt.MinInt, fmt.MaxInt. intros Hx. dlia. Qed.

Section Translator.
Context `{CaseRanges}.

Implicit Types (lq : string) (filters : gmap string FilterValue).

Lemma wordCountRules_other lq filters k :
  k <> "word_count" -> wordCountRules lq filters !! k = filters !! k.
Proof.
  intros Hk. unfold wordCountRules.
  repeat case_match; by rewrite ?lookup_insert_ne.
Qed.

Lemma palindromeRule_other lq filters k :
  k <> "is_palindrome" -> palindromeRule lq filters !! k = filters !! k.
Proof.
  intros Hk. unfold palindromeRule. case_match; by rewrite ?lookup_insert_ne.
Qed.

Lemma longerRule_other lq filters k :
  k <> "min_length" -> longerRule lq filters !! k = filters !! k.
Proof.
  intros Hk. unfold longerRule. case_match; by rewrite ?lookup_insert_ne.
Qed.

Lemma shorterRule_other lq filters k :
  k <> "max_length" -> shorterRule lq filters !! k = filters !! k.
Proof.
  intros Hk. unfold shorterRule. case_match; by rewrite ?lookup_insert_ne.
Qed.

Lemma charRule_other lq filters k :
  k <> "contains_character" -> charRule lq filters !! k = filters !! k.
Proof.
  intros Hk. unfold charRule. case_match; by rewrite ?lookup_insert_ne.
Qed.

Lemma vowelRules_other lq filters k :
  k <> "contains_character" -> vowelRules lq filters !! k = filters !! k.
Proof.
  intros Hk. unfold vowelRules. repeat case_match; by rewrite ?lookup_insert_ne.
Qed.

(** What the translator leaves under each key. *)
Lemma lookup_word_count query :
  parsedFilters query !! "word_count"
  = (if strings.Contains (ToLower query) "single word" then Some (VInt 1)
     else if strings.Contains (ToLower query) "two word"
             || strings.Contains (ToLower query) "2 word"
          then Some (VInt 2)
     else if strings.Contains (ToLower query) "three word"
             || strings.Contains (ToLower query) "3 word"
          then Some (VInt 3)
     else None).
Proof.
  unfold parsedFilters. cbn zeta.
  rewrite vowelRules_other, charRule_other, shorterRule_other, longerRule_other,
    palindromeRule_other by done.
  unfold wordCountRules.
  repeat case_match; by rewrite ?lookup_insert_eq, ?lookup_empty.
Qed.

Lemma lookup_is_palindrome query :
  parsedFilters query !! "is_palindrome"
  = (if strings.Contains (ToLower query) "palindrom" then Some (VBool true) else None).
Proof.
  unfold parsedFilters. cbn zeta.
  rewrite vowelRules_other, charRule_other, shorterRule_other, longerRule_other by done.
  unfold palindromeRule. case_match; [by rewrite lookup_insert_eq|].
  by rewrite wordCountRules_other, lookup_empty.
Qed.

Lemma lookup_min_length query :
  parsedFilters query !! "min_length"
  = (match regexp.findDigits "longer than " (ToLower query) with
     | Some m1 => Some (VInt (fmt.wrapInt (fmt.Sscanf_d m1 0 + 1)))
     | None => None
     end).
Proof.
  unfold parsedFilters. cbn zeta.
  rewrite vowelRules_other, charRule_other, shorterRule_other by done.
  unfold longerRule. case_match; [by rewrite lookup_insert_eq|].
  by rewrite palindromeRule_other, wordCountRules_other, lookup_empty.
Qed.

Lemma lookup_max_length query :
  parsedFilters query !! "max_length"
  = (match regexp.findDigits "shorter than " (ToLower query) with
     | Some m1 => Some (VInt (fmt.wrapInt (fmt.Sscanf_d m1 0 - 1)))
     | None => None
     end).
Proof.
  unfold parsedFilters. cbn zeta.
  rewrite vowelRules_other, charRule_other by done.
  unfold shorterRule. case_match; [by rewrite lookup_insert_eq|].
  by rewrite longerRule_other, palindromeRule_other, wordCountRules_other, lookup_empty.
Qed.

Lemma lookup_contains_character query :
  parsedFilters query !! "contains_character"
  = (if strings.Contains (ToLower query) "first vowel" then Some (VString "a")
     else if strings.Contains (ToLower query) "last vowel" then Some (VString "u")
     else match regexp.findChar (ToLower query) with
          | Some m1 => Some (VString m1)
          | None => None
          end).
Proof.
  unfold parsedFilters. cbn zeta.
  unfold vowelRules. repeat case_match; try by rewrite lookup_insert_eq.
  all: unfold charRule; rewrite ?lookup_insert_eq; try done.
  all: match goal with Hf : regexp.findChar _ = _ |- _ => rewrite Hf end.
  all: by rewrite ?lookup_insert_eq, ?shorterRule_other, ?longerRule_other,
         ?palindromeRule_other, ?wordCountRules_other, ?lookup_empty.
Qed.

Lemma lookup_other_key query k :
  k ∉ ["word_count"; "is_palindrome"; "min_length"; "max_length";
       "contains_character"] ->
  parsedFilters query !! k = None.
Proof.
  intros Hk.
  assert (k <> "word_count" /\ k <> "is_palindrome" /\ k <> "min_length" /\
          k <> "max_length" /\ k <> "contains_character") as (?&?&?&?&?).
  { repeat split; intros ->; apply Hk; in_list. }
  unfold parsedFilters. cbn zeta.
  by rewrite vowelRules_other, charRule_other, shorterRule_other, longerRule_other,
    palindromeRule_other, wordCountRules_other, lookup_empty.
Qed.

(** C2, as amended: the keys are decided independently of one another.
    Among the word-count rules the first that matches, in the order
    single, two, three, decides [word_count]; the first-vowel rule goes
    before the last-vowel rule, and either overwrites the letter captured
    by the character pattern; the other three keys have one rule each. *)
Theorem parsedFilters_by_key (query : string) :
  let lq := ToLower query in
  let filters := parsedFilters query in
  filters !! "word_count"
  = (if strings.Contains lq "single word" then Some (VInt 1)
     else if strings.Contains lq "two word" || strings.Contains lq "2 word"
          then Some (VInt 2)
     else if strings.Contains lq "three word" || strings.Contains lq "3 word"
          then Some (VInt 3)
     else None) /\
  filters !! "is_palindrome"
  = (if strings.Contains lq "palindrom" then Some (VBool true) else None) /\
  filters !! "min_length"
  = (match regexp.findDigits "longer than " lq with
     | Some m1 => Some (VInt (fmt.wrapInt (fmt.Sscanf_d m1 0 + 1)))
     | None => None
     end) /\
  filters !! "max_length"
  = (match regexp.findDigits "shorter than " lq with
     | Some m1 => Some (VInt (fmt.wrapInt (fmt.Sscanf_d m1 0 - 1)))
     | None => None
     end) /\
  filters !! "contains_character"
  = (if strings.Contains lq "first vowel" then Some (VString "a")
     else if strings.Contains lq "last vowel" then Some (VString "u")
     else match regexp.findChar lq with
          | Some m1 => Some (VString m1)
          | None => None
          end) /\
  (forall k, k ∉ ["word_count"; "is_palindrome"; "min_length"; "max_length";
                  "contains_character"] -> filters !! k = None).
Proof.
  cbn zeta. split; [apply lookup_word_count|].
  split; [apply lookup_is_palindrome|].
  split; [apply lookup_min_length|].
  split; [apply lookup_max_length|].
  split; [apply lookup_contains_character|].
  apply lookup_other_key.
Qed.

End Translator.

Lemma no_pattern_iff lq :
  ~ patternMatches lq <->
  strings.Contains lq "single word" = false /\
  strings.Contains lq "two word" = false /\ strings.Contains lq "2 word" = false /\
  strings.Contains lq "three word" = false /\ strings.Contains lq "3 word" = false /\
  strings.Contains lq "palindrom" = false /\
  regexp.findDigits "longer than " lq = None /\
  regexp.findDigits "shorter than " lq = None /\
  regexp.findChar lq = None /\
  strings.Contains lq "first vowel" = false /\
  strings.Contains lq "last vowel" = false.
Proof.
  unfold patternMatches. rewrite !Contains_false, !findDigits_None, findChar_None.
  tauto.
Qed.

Section TranslatorErrors.
Context `{CaseRanges}.

Lemma parsedFilters_empty_iff query :
  parsedFilters query = ∅ <-> ~ patternMatches (ToLower query).
Proof.
  pose proof (lookup_word_count query) as Hwc.
  pose proof (lookup_is_palindrome query) as Hpal.
  pose proof (lookup_min_length query) as Hmin.
  pose proof (lookup_max_length query) as Hmax.
  pose proof (lookup_contains_character query) as Hch.
  pose proof (lookup_other_key query) as Hother.
  rewrite no_pattern_iff. split.
  - intros He. rewrite He, lookup_empty in Hwc, Hpal, Hmin, Hmax, Hch.
    repeat case_match; try discriminate; repeat split; try done;
      repeat match goal with
             | Hb : (_ || _) = false |- _ => apply orb_false_elim in Hb as [? ?]
             end; done.
  - intros (H1 & H2 & H3 & H4 & H5 & H6 & H7 & H8 & H9 & H10 & H11).
    rewrite H1, H2, H3, H4, H5 in Hwc. rewrite H6 in Hpal. rewrite H7 in Hmin.
    rewrite H8 in Hmax. rewrite H9, H10, H11 in Hch. cbn in Hwc.
    apply map_eq. intros k. rewrite lookup_empty.
    destruct (decide (k ∈ ["word_count"; "is_palindrome"; "min_length"; "max_length";
                           "contains_character"])) as [Hin|Hout]; [|by apply Hother].
    apply list_elem_of_In in Hin. cbn in Hin.
    destruct Hin as [<-|[<-|[<-|[<-|[<-|[]]]]]]; done.
Qed.

Lemma parse_error_iff_empty query :
  (exists msg, parseNaturalLanguageQuery query = Err msg) <-> parsedFilters query = ∅.
Proof.
  unfold parseNaturalLanguageQuery.
  destruct (Nat.eqb_spec (size (parsedFilters query)) 0) as [Hs|Hs].
  - apply map_size_empty_iff in Hs. split; eauto.
  - split; [by intros [? ?]|]. intros He. rewrite He, map_size_empty in Hs. done.
Qed.

(** C8: the translation fails exactly when none of the patterns occurs in
    the lower-cased query; the failure carries no filter map, and the
    handler then answers with the error alone, whatever the store holds.
    The query ["gibberish xyzzy"] fails. *)
Theorem parse_error_spec (query : string) :
  ((exists msg, parseNaturalLanguageQuery query = Err msg)
   <-> ~ patternMatches (ToLower query)) /\
  (forall msg stringStore resp,
     parseNaturalLanguageQuery query = Err msg ->
     query <> EmptyString ->
     filterByNaturalLanguage query stringStore resp ->
     resp = JSON StatusBadRequest
              (BError ("Unable to parse natural language query: " +:+ msg))) /\
  parseNaturalLanguageQuery "gibberish xyzzy"
  = Err "unable to parse any filters from query".
Proof.
  split; [|split].
  - by rewrite parse_error_iff_empty, parsedFilters_empty_iff.
  - intros msg stringStore resp Herr Hne. unfold filterByNaturalLanguage.
    destruct (String.eqb_spec query ""); [done|]. by rewrite Herr.
  - reflexivity.
Qed.

(** C7, as amended: when the leftmost occurrence of ["longer than "]
    followed by digits in the lower-cased query carries the digit run of
    [N] and [N + 1] fits in an [int], the translator sets [min_length] to
    [N + 1]; likewise ["shorter than "] with [N] that fits in an [int]
    sets [max_length] to [N - 1].  ["strings longer than 10"] gives
    [min_length = 11] and nothing else. *)
Theorem length_rules_spec (query pre ds post : string) :
  (leftmostMatch "longer than " (ToLower query) pre ds post ->
   fmt.decimal 0 ds + 1 <= fmt.MaxInt ->
   parsedFilters query !! "min_length" = Some (VInt (fmt.decimal 0 ds + 1))) /\
  (leftmostMatch "shorter than " (ToLower query) pre ds post ->
   fmt.decimal 0 ds <= fmt.MaxInt ->
   parsedFilters query !! "max_length" = Some (VInt (fmt.decimal 0 ds - 1))) /\
  parseNaturalLanguageQuery "strings longer than 10" = Ok {[ "min_length" := VInt 11 ]}.
Proof.
  pose proof (lookup_min_length query) as Hmin.
  pose proof (lookup_max_length query) as Hmax.
  split; [|split].
  - intros Hl Hfit. pose proof Hl as [[_ Hrun] _].
    assert (regexp.findDigits "longer than " (ToLower query) = Some ds) as Hf
      by (apply findDigits_Some; eauto).
    rewrite Hmin, Hf. do 2 f_equal.
    rewrite (Sscanf_d_run ds post) by (done || lia).
    destruct Hrun as (_ & Hd & _). pose proof (decimal_nonneg ds 0 Hd).
    apply wrapInt_small. unfold fmt.MinInt, fmt.MaxInt in *. lia.
  - intros Hl Hfit. pose proof Hl as [[_ Hrun] _].
    assert (regexp.findDigits "shorter than " (ToLower query) = Some ds) as Hf
      by (apply findDigits_Some; eauto).
    rewrite Hmax, Hf. do 2 f_equal.
    rewrite (Sscanf_d_run ds post) by (done || lia).
    destruct Hrun as (_ & Hd & _). pose proof (decimal_nonneg ds 0 Hd).
    apply wrapInt_small. unfold fmt.MinInt, fmt.MaxInt in *. lia.
  - vm_compute. reflexivity.
Qed.

End TranslatorErrors.

(** ** The store *)

Section Store.
Context `{CaseRanges}.

Implicit Types (stringStore : gmap string AnalyzedString).

Lemma collect_filter params (iter : list (string * AnalyzedString)) :
  collect params iter
  = filter (fun a => matchesFilters a params = true) (snd <$> iter).
Proof.
  unfold collect.
  assert (forall acc,
            fold_left (fun results kv =>
                         if matchesFilters (snd kv) params
                         then results ++ [snd kv] else results) iter acc
            = acc ++ filter (fun a => matchesFilters a params = true) (snd <$> iter))
    as Hgen.
  { induction iter as [|kv iter IH]; intros acc; cbn [fold_left].
    - by rewrite app_nil_r.
    - rewrite IH, fmap_cons, filter_cons.
      destruct (matchesFilters (snd kv) params) eqn:Hm.
      + rewrite decide_True by done. by rewrite <- app_assoc.
      + by rewrite decide_False by done. }
  apply (Hgen []).
Qed.

Lemma createString_unbound now stringStore :
  createString None now stringStore
  = (JSON StatusBadRequest (BError "Invalid request body or missing 'value' field"),
     stringStore).
Proof. reflexivity. Qed.

Lemma createString_bound req now stringStore :
  createString (Some req) now stringStore
  = match stringStore !! calculateSHA256 (ReqValue req) with
    | Some _ =>
      (JSON StatusConflict (BError "String already exists in the system"), stringStore)
    | None =>
      let analyzed := {| ID := calculateSHA256 (ReqValue req);
                         Value := ReqValue req;
                         Properties := analyzeString (ReqValue req);
                         CreatedAt := now |} in
      (JSON StatusCreated (BRecord analyzed),
       <[calculateSHA256 (ReqValue req) := analyzed]> stringStore)
    end.
Proof.
  unfold createString.
  destruct (Z.eqb_spec (len (ReqValue req)) 0) as [Hz|Hz]; [|done].
  apply len_zero in Hz. by rewrite Hz.
Qed.

(** C5: creating a string whose digest is already a key of the store
    answers 409 and leaves the store as it was; creating the same value
    a second time is such a case. *)
Theorem createString_duplicate (req : CreateStringRequest) (now now' : Time)
    stringStore :
  (is_Some (stringStore !! calculateSHA256 (ReqValue req)) ->
   createString (Some req) now stringStore
   = (JSON StatusConflict (BError "String already exists in the system"),
      stringStore)) /\
  (let once := snd (createString (Some req) now stringStore) in
   let twice := createString (Some req) now' once in
   Status (fst twice) = StatusConflict /\ snd twice = once /\
   size (snd twice) = size once).
Proof.
  split.
  - intros [a Ha]. by rewrite createString_bound, Ha.
  - cbn zeta. rewrite (createString_bound req now).
    destruct (stringStore !! calculateSHA256 (ReqValue req)) as [a|] eqn:Ha;
      cbn [snd]; rewrite createString_bound.
    + by rewrite Ha.
    + by rewrite lookup_insert_eq.
Qed.

Lemma apply_preserves stringStore m :
  map_Forall recordOk stringStore -> map_Forall recordOk (apply stringStore m).
Proof.
  intros Hinv. destruct m as [[req|] now|value]; cbn [apply].
  - rewrite createString_bound.
    destruct (stringStore !! calculateSHA256 (ReqValue req)) eqn:Hl; [done|].
    cbn [snd]. apply map_Forall_insert_2; [|done]. by repeat split.
  - done.
  - unfold deleteString. case_match; [|done]. cbn [snd].
    by apply map_Forall_delete.
Qed.

Lemma storeAfter_invariant ms : map_Forall recordOk (storeAfter ms).
Proof.
  unfold storeAfter.
  assert (forall st, map_Forall recordOk st -> map_Forall recordOk (fold_left apply ms st))
    as Hgen.
  { induction ms as [|m ms IH]; intros st Hst; cbn [fold_left]; [done|].
    by apply IH, apply_preserves. }
  apply Hgen, map_Forall_empty.
Qed.

(** C9: whatever requests were served, a record in the store sits under
    its own id, the id is the digest of the value, the stored properties
    are those of a fresh analysis of the value and their hash is the id;
    the digest is the SHA-256 of the bytes of the value, written as 64
    lower-case hexadecimal digits. *)
Theorem stored_record_invariant (ms : list mutation) (k : string) (r : AnalyzedString) :
  storeAfter ms !! k = Some r ->
  k = ID r /\
  ID r = calculateSHA256 (Value r) /\
  SHA256Hash (Properties r) = ID r /\
  Properties r = analyzeString (Value r) /\
  ID r = fmt.Sprintf_x (sha256.Sum256 (bytes (Value r))) /\
  String.length (ID r) = 64%nat /\
  allLowerHex (ID r) = true.
Proof.
  intros Hl. destruct (storeAfter_invariant ms k r Hl) as (Hk & Hid & Hh & Hp).
  repeat split; try done; rewrite Hid; apply calculateSHA256_format.
Qed.

End Store.

(** ** The listing *)

Lemma sorted_notAfter_le l :
  StronglySorted notAfter l <-> StronglySorted (fun x y => CreatedAt x <= CreatedAt y) l.
Proof.
  split; induction 1 as [|x l Hl IH Hx]; constructor; try done;
    (eapply Forall_impl; [exact Hx|]); intros y Hy; by apply notAfter_le.
Qed.

Section Listing.
Context `{CaseRanges}.

Implicit Types (stringStore : gmap string AnalyzedString).

Lemma getAllStrings_iff params stringStore resp :
  getAllStrings (Some params) stringStore resp <->
  exists iter results,
    rangeOrder stringStore iter /\
    sort_Slice createdBefore (collect params iter) results /\
    resp = listResponse params results.
Proof. reflexivity. Qed.

Lemma collect_perm params (iter iter' : list (string * AnalyzedString)) :
  iter ≡ₚ iter' -> collect params iter ≡ₚ collect params iter'.
Proof. intros Hp. rewrite !collect_filter. by rewrite Hp. Qed.

(** The insertion sort of the entries in the order of [map_to_list] is a
    response the handler can give. *)
Lemma listAllRun_admissible params stringStore :
  getAllStrings (Some params) stringStore
                (listResponse params (listAllRun params stringStore)).
Proof.
  exists (map_to_list stringStore), (listAllRun params stringStore).
  split; [by unfold rangeOrder|]. split; [apply insertionSort_sort_Slice|done].
Qed.

(** So is any enumeration that comes out already sorted. *)
Lemma sorted_enumeration_admissible params stringStore iter :
  rangeOrder stringStore iter ->
  StronglySorted notAfter (collect params iter) ->
  getAllStrings (Some params) stringStore (listResponse params (collect params iter)).
Proof.
  intros Hr Hs. exists iter, (collect params iter). split; [done|].
  split; [by split|done].
Qed.

Lemma matchesFilters_noFilter a : matchesFilters a noFilter = true.
Proof. reflexivity. Qed.

Lemma filter_noFilter (l : list AnalyzedString) :
  filter (fun a => matchesFilters a noFilter = true) l = l.
Proof.
  induction l as [|a l IH]; [done|]. rewrite filter_cons, decide_True by done.
  by rewrite IH.
Qed.

Lemma create_fresh value now stringStore :
  stringStore !! calculateSHA256 value = None ->
  snd (createString (Some {| ReqValue := value |}) now stringStore)
  = <[calculateSHA256 value := newRecord value now]> stringStore.
Proof. intros Hl. rewrite createString_bound. cbn [ReqValue]. by rewrite Hl. Qed.

Lemma storeAfter_three v1 v2 v3 t1 t2 t3 :
  calculateSHA256 v1 <> calculateSHA256 v2 ->
  calculateSHA256 v1 <> calculateSHA256 v3 ->
  calculateSHA256 v2 <> calculateSHA256 v3 ->
  snd <$> map_to_list (storeAfter [Create (Some {| ReqValue := v1 |}) t1;
                                   Create (Some {| ReqValue := v2 |}) t2;
                                   Create (Some {| ReqValue := v3 |}) t3])
  ≡ₚ [newRecord v1 t1; newRecord v2 t2; newRecord v3 t3].
Proof.
  intros H12 H13 H23. unfold storeAfter. cbn [fold_left apply].
  assert ((∅ : gmap string AnalyzedString) !! calculateSHA256 v1 = None) as Hl1
    by apply lookup_empty.
  rewrite (create_fresh v1 t1 ∅ Hl1).
  assert ((<[calculateSHA256 v1 := newRecord v1 t1]> ∅ : gmap string AnalyzedString)
            !! calculateSHA256 v2 = None) as Hl2
    by (by rewrite lookup_insert_ne, lookup_empty).
  rewrite (create_fresh v2 t2 _ Hl2).
  assert ((<[calculateSHA256 v2 := newRecord v2 t2]>
             (<[calculateSHA256 v1 := newRecord v1 t1]> ∅) : gmap string AnalyzedString)
            !! calculateSHA256 v3 = None) as Hl3
    by (by rewrite !lookup_insert_ne, lookup_empty).
  rewrite (create_fresh v3 t3 _ Hl3).
  rewrite (map_to_list_insert _ _ _ Hl3), (map_to_list_insert _ _ _ Hl2),
    (map_to_list_insert _ _ _ Hl1), map_to_list_empty.
  cbn [fmap list_fmap snd]. exact (Permutation_rev [_; _; _]).
Qed.

(** Two records created at the same instant can be listed in the order
    opposite to their creation. *)
Lemma tie_listing v1 v2 t :
  calculateSHA256 v1 <> calculateSHA256 v2 ->
  getAllStrings (Some noFilter)
    (storeAfter [Create (Some {| ReqValue := v1 |}) t;
                 Create (Some {| ReqValue := v2 |}) t])
    (listResponse noFilter [newRecord v2 t; newRecord v1 t]).
Proof.
  intros Hne.
  assert ((∅ : gmap string AnalyzedString) !! calculateSHA256 v1 = None) as Hl1
    by apply lookup_empty.
  assert ((<[calculateSHA256 v1 := newRecord v1 t]> ∅ : gmap string AnalyzedString)
            !! calculateSHA256 v2 = None) as Hl2
    by (by rewrite lookup_insert_ne, lookup_empty).
  exists [(calculateSHA256 v2, newRecord v2 t); (calculateSHA256 v1, newRecord v1 t)],
         [newRecord v2 t; newRecord v1 t].
  split; [|split; [|done]].
  - unfold rangeOrder, storeAfter. cbn [fold_left apply].
    rewrite (create_fresh v1 t ∅ Hl1), (create_fresh v2 t _ Hl2).
    by rewrite (map_to_list_insert _ _ _ Hl2), (map_to_list_insert _ _ _ Hl1),
      map_to_list_empty.
  - rewrite collect_filter, filter_noFilter. cbn [fmap list_fmap snd].
    split; [done|].
    repeat constructor; apply notAfter_le; cbn [newRecord CreatedAt]; lia.
Qed.

(** C3, as amended: a listing is a permutation of the records of the
    store that match, in non-decreasing order of [createdAt]; nothing
    orders records created at the same instant, so the listing is
    determined only when the instants of the listed records differ
    pairwise.  Records created at increasing instants are listed in the
    order of their creation: ["b"], ["a"], ["c"]. *)
Theorem getAllStrings_order :
  (forall params stringStore resp,
     getAllStrings (Some params) stringStore resp ->
     dataOf resp ≡ₚ filter (fun a => matchesFilters a params = true)
                          (snd <$> map_to_list stringStore) /\
     StronglySorted (fun x y => CreatedAt x <= CreatedAt y) (dataOf resp) /\
     (NoDup (CreatedAt <$> dataOf resp) ->
      forall resp', getAllStrings (Some params) stringStore resp' -> resp' = resp)) /\
  (forall t1 t2 t3 resp,
     t1 < t2 < t3 ->
     getAllStrings (Some noFilter)
       (storeAfter [Create (Some {| ReqValue := "b" |}) t1;
                    Create (Some {| ReqValue := "a" |}) t2;
                    Create (Some {| ReqValue := "c" |}) t3]) resp ->
     Value <$> dataOf resp = ["b"; "a"; "c"]).
Proof.
  assert (forall params stringStore resp,
     getAllStrings (Some params) stringStore resp ->
     dataOf resp ≡ₚ filter (fun a => matchesFilters a params = true)
                          (snd <$> map_to_list stringStore) /\
     StronglySorted notAfter (dataOf resp) /\
     (NoDup (CreatedAt <$> dataOf resp) ->
      forall resp', getAllStrings (Some params) stringStore resp' -> resp' = resp))
    as Hgen.
  { intros params stringStore resp (iter & results & Hr & [Hp Hs] & ->).
    cbn [dataOf listResponse Payload Data]. split; [|split].
    - rewrite <- Hp, collect_filter. unfold rangeOrder in Hr. by rewrite Hr.
    - done.
    - intros Hnd resp' (iter' & results' & Hr' & [Hp' Hs'] & ->).
      assert (results = results') as <-; [|done].
      apply sorted_perm_unique; try done.
      rewrite <- Hp, <- Hp'. apply collect_perm.
      unfold rangeOrder in *. by rewrite Hr, Hr'. }
  split.
  - intros params stringStore resp Hg.
    destruct (Hgen params stringStore resp Hg) as (Hp & Hs & Hd).
    split; [done|]. split; [by apply sorted_notAfter_le|done].
  - intros t1 t2 t3 resp Ht Hg.
    destruct (Hgen _ _ _ Hg) as (Hp & Hs & _). clear Hgen Hg.
    rewrite filter_noFilter in Hp.
    rewrite storeAfter_three in Hp by (vm_compute; discriminate).
    assert ([newRecord "b" t1; newRecord "a" t2; newRecord "c" t3] = dataOf resp)
      as <-; [|done].
    apply sorted_perm_unique.
    + repeat constructor; apply notAfter_le; cbn [newRecord CreatedAt]; lia.
    + done.
    + by rewrite Hp.
    + cbn [fmap list_fmap newRecord CreatedAt].
      repeat constructor; rewrite ?elem_of_cons, ?elem_of_nil; lia.
Qed.

End Listing.

(** * Further properties of the code *)

(** ** The store: [createString], [getString], [deleteString] *)

Section StoreProperties.
Context `{CaseRanges}.

Implicit Types (stringStore : gmap string AnalyzedString).

Lemma deleteString_cases value stringStore :
  deleteString value stringStore
  = match stringStore !! calculateSHA256 value with
    | None =>
      (JSON StatusNotFound (BError "String does not exist in the system"), stringStore)
    | Some _ => (JSON StatusNoContent BNil, delete (calculateSHA256 value) stringStore)
    end.
Proof. reflexivity. Qed.

(** X1: [createString] has three outcomes and no other. A request that
    could not be bound is answered 400 and a value whose digest is a key
    of the store 409, both with the store as it was; any other value is
    answered 201 with the new record, which is put under its digest, and
    the store grows by exactly one entry. The status 422 is never
    written. *)
Theorem createString_outcomes (bound : option CreateStringRequest) (now : Time)
    stringStore :
  let resp := fst (createString bound now stringStore) in
  let after := snd (createString bound now stringStore) in
  ((bound = None /\ Status resp = StatusBadRequest /\ after = stringStore) \/
   (exists req, bound = Some req /\
      is_Some (stringStore !! calculateSHA256 (ReqValue req)) /\
      Status resp = StatusConflict /\ after = stringStore) \/
   (exists req, bound = Some req /\
      stringStore !! calculateSHA256 (ReqValue req) = None /\
      resp = JSON StatusCreated (BRecord (newRecord (ReqValue req) now)) /\
      after = <[calculateSHA256 (ReqValue req) := newRecord (ReqValue req) now]> stringStore /\
      size after = S (size stringStore))) /\
  Status resp <> StatusUnprocessableEntity.
Proof.
  cbn zeta. destruct bound as [req|]; [|split; [left|]; done].
  rewrite createString_bound.
  destruct (stringStore !! calculateSHA256 (ReqValue req)) as [a|] eqn:Hl;
    (split; [right|done]).
  - left. exists req. eauto.
  - right. exists req. cbn [fst snd]. repeat split; try done.
    by apply map_size_insert_None.
Qed.

(** X2: [deleteString] answers 404 and leaves the store as it was when
    the digest of the value is not a key; else it answers 204 with no
    body and the store has one entry less. In both cases every other key
    keeps its record and the value is not found afterwards. *)
Theorem deleteString_outcomes (value : string) stringStore :
  let resp := fst (deleteString value stringStore) in
  let after := snd (deleteString value stringStore) in
  ((stringStore !! calculateSHA256 value = None /\
    Status resp = StatusNotFound /\ after = stringStore) \/
   (is_Some (stringStore !! calculateSHA256 value) /\
    resp = JSON StatusNoContent BNil /\
    S (size after) = size stringStore)) /\
  (forall k, k <> calculateSHA256 value -> after !! k = stringStore !! k) /\
  Status (getString value after) = StatusNotFound.
Proof.
  cbn zeta. rewrite deleteString_cases. unfold getString.
  destruct (stringStore !! calculateSHA256 value) as [a|] eqn:Hl; cbn [fst snd].
  - split; [right|split].
    + split; [eauto|]. split; [done|].
      rewrite <- (insert_delete_id stringStore _ _ Hl) at 2.
      by rewrite map_size_insert_None by apply lookup_delete_eq.
    + intros k Hk. by rewrite lookup_delete_ne.
    + by rewrite lookup_delete_eq.
  - split; [left; done|]. split; [done|]. by rewrite Hl.
Qed.

(** X3: after a create request for a value, whatever came before,
    [getString] finds a record for that value: the new one when the digest
    was free, the old one, unchanged, when it was taken (the request was
    then the duplicate, and did not refresh the record). *)
Theorem create_then_get (ms : list mutation) (value : string) (now : Time) :
  let before := storeAfter ms in
  let after := storeAfter (ms ++ [Create (Some {| ReqValue := value |}) now]) in
  exists r,
    getString value after = JSON StatusOK (BRecord r) /\
    ID r = calculateSHA256 value /\
    calculateSHA256 (Value r) = calculateSHA256 value /\
    (before !! calculateSHA256 value = None -> r = newRecord value now) /\
    (forall old, before !! calculateSHA256 value = Some old -> r = old).
Proof.
  cbn zeta. unfold storeAfter. rewrite fold_left_app. cbn [fold_left apply].
  fold (storeAfter ms). rewrite createString_bound. cbn [ReqValue]. unfold getString.
  destruct (storeAfter ms !! calculateSHA256 value) as [old|] eqn:Hl; cbn [snd].
  - rewrite Hl. exists old. destruct (storeAfter_invariant ms _ _ Hl) as (Hk & Hid & _).
    repeat split; try done; congruence.
  - rewrite lookup_insert_eq. exists (newRecord value now). repeat split; done.
Qed.

(** X4: deleting a value right after its creation gives back the store
    as it was before, when the value was not in it. *)
Theorem create_then_delete (value : string) (now : Time) stringStore :
  stringStore !! calculateSHA256 value = None ->
  snd (deleteString value
         (snd (createString (Some {| ReqValue := value |}) now stringStore)))
  = stringStore.
Proof.
  intros Hl. rewrite (create_fresh value now stringStore Hl), deleteString_cases.
  rewrite lookup_insert_eq. cbn [snd]. rewrite delete_insert_eq.
  by apply delete_id.
Qed.

(** X5: no request rewrites a stored record: after any create or delete
    request a record is still in the store, as it was, unless the request
    was the deletion of a value with that digest. *)
Theorem record_kept_until_deleted stringStore (m : mutation) (k : string)
    (r : AnalyzedString) :
  stringStore !! k = Some r ->
  apply stringStore m !! k = Some r \/
  (apply stringStore m !! k = None /\ exists value, m = Delete value /\ calculateSHA256 value = k).
Proof.
  intros Hl. destruct m as [[req|] now|value]; cbn [apply].
  - rewrite createString_bound.
    destruct (stringStore !! calculateSHA256 (ReqValue req)) as [a|] eqn:Ha; cbn [snd];
      [by left|].
    left. rewrite lookup_insert_ne; [done|]. intros <-. congruence.
  - by left.
  - rewrite deleteString_cases.
    destruct (stringStore !! calculateSHA256 value) as [a|] eqn:Ha; cbn [snd]; [|by left].
    destruct (decide (calculateSHA256 value = k)) as [<-|Hne].
    + right. rewrite lookup_delete_eq. eauto.
    + left. by rewrite lookup_delete_ne.
Qed.

(** Every record of the store was built by a create request of the history. *)
Lemma stored_from_create (ms : list mutation) (k : string) (r : AnalyzedString) :
  storeAfter ms !! k = Some r ->
  exists value now,
    Create (Some {| ReqValue := value |}) now ∈ ms /\
    r = newRecord value now /\ k = calculateSHA256 value.
Proof.
  revert k r. induction ms as [|m ms IH] using rev_ind; intros k r.
  - unfold storeAfter. cbn. by rewrite lookup_empty.
  - unfold storeAfter. rewrite fold_left_app. cbn [fold_left]. fold (storeAfter ms).
    intros Hl.
    assert (storeAfter ms !! k = Some r \/
            exists value now, m = Create (Some {| ReqValue := value |}) now /\
                              r = newRecord value now /\ k = calculateSHA256 value)
      as [Hold|(value & now & -> & -> & ->)].
    { destruct m as [[[value]|] now|value]; cbn [apply] in Hl.
      - rewrite createString_bound in Hl. cbn [ReqValue] in Hl.
        destruct (storeAfter ms !! calculateSHA256 value) eqn:Ha; cbn [snd] in Hl;
          [by left|].
        destruct (decide (calculateSHA256 value = k)) as [<-|Hne].
        + rewrite lookup_insert_eq in Hl. injection Hl as <-. right. eauto.
        + rewrite lookup_insert_ne in Hl by done. by left.
      - by left.
      - rewrite deleteString_cases in Hl.
        destruct (storeAfter ms !! calculateSHA256 value) eqn:Ha; cbn [snd] in Hl;
          [|by left].
        left. apply lookup_delete_Some in Hl as [_ Hl]. done. }
    + destruct (IH k r Hold) as (value & now & Hin & Hr & Hk).
      exists value, now. split; [|done]. apply elem_of_app. by left.
    + exists value, now. split; [|done]. apply elem_of_app. right. by left.
Qed.

(** X6: what [getString] returns was built by a create request of the
    history, for a value with the digest asked for, and is the analysis
    made at that request. *)
Theorem getString_found (ms : list mutation) (value : string) (r : AnalyzedString) :
  getString value (storeAfter ms) = JSON StatusOK (BRecord r) ->
  exists created now,
    Create (Some {| ReqValue := created |}) now ∈ ms /\
    r = newRecord created now /\
    calculateSHA256 created = calculateSHA256 value.
Proof.
  unfold getString.
  destruct (storeAfter ms !! calculateSHA256 value) as [a|] eqn:Hl; [|done].
  intros [= <-]. destruct (stored_from_create ms _ _ Hl) as (created & now & Hin & Hr & Hk).
  eauto.
Qed.

End StoreProperties.

(** ** The listings: [getAllStrings], [filterByNaturalLanguage] *)

Section ListingProperties.
Context `{CaseRanges}.

Implicit Types (stringStore : gmap string AnalyzedString).

Lemma entries_ids (ms : list mutation) :
  ID <$> (snd <$> map_to_list (storeAfter ms)) = fst <$> map_to_list (storeAfter ms).
Proof.
  rewrite <- list_fmap_compose. apply list_fmap_ext.
  intros i [k r] Hkr. cbn.
  apply list_elem_of_lookup_2, elem_of_map_to_list in Hkr.
  by destruct (storeAfter_invariant ms k r Hkr) as (-> & _).
Qed.

Lemma collected_from_store (ms : list mutation) params iter a :
  rangeOrder (storeAfter ms) iter ->
  a ∈ collect params iter ->
  matchesFilters a params = true /\ storeAfter ms !! ID a = Some a.
Proof.
  intros Hr Ha. rewrite collect_filter in Ha.
  apply list_elem_of_filter in Ha as [Hm Ha]. split; [done|].
  apply list_elem_of_fmap in Ha as ([k r] & -> & Hin). cbn [snd].
  unfold rangeOrder in Hr. rewrite Hr in Hin.
  apply elem_of_map_to_list in Hin.
  by destruct (storeAfter_invariant ms k r Hin) as (<- & _).
Qed.

Lemma collected_NoDup (ms : list mutation) params iter :
  rangeOrder (storeAfter ms) iter -> NoDup (ID <$> collect params iter).
Proof.
  intros Hr. rewrite collect_filter.
  assert (NoDup (ID <$> (snd <$> iter))) as Hnd.
  { unfold rangeOrder in Hr. rewrite Hr, entries_ids. apply NoDup_fst_map_to_list. }
  revert Hnd. generalize (snd <$> iter). intros l.
  induction l as [|x l IH]; [done|]. rewrite fmap_cons, filter_cons.
  intros [Hx Hl]%NoDup_cons. destruct (decide _); [|by apply IH].
  rewrite fmap_cons. apply NoDup_cons. split; [|by apply IH].
  intros Hin. apply Hx. apply list_elem_of_fmap in Hin as (y & -> & Hy).
  apply list_elem_of_fmap. exists y. split; [done|].
  by apply list_elem_of_filter in Hy as [_ ?].
Qed.

(** X7: a listing never shows a record twice: the ids of the listed
    records are pairwise distinct, every listed record passes the filters
    and is the record the store holds under its id, and the count is the
    number of listed records. *)
Theorem getAllStrings_distinct (ms : list mutation) (params : FilterParams)
    (resp : Response) :
  getAllStrings (Some params) (storeAfter ms) resp ->
  NoDup (ID <$> dataOf resp) /\
  (forall a, a ∈ dataOf resp ->
             matchesFilters a params = true /\ storeAfter ms !! ID a = Some a) /\
  exists r, Payload resp = BList r /\ Count r = Z.of_nat (length (Data r)) /\
            Status resp = StatusOK.
Proof.
  intros (iter & results & Hr & [Hp Hs] & ->).
  cbn [dataOf Payload Data]. split; [|split].
  - rewrite <- Hp. by apply (collected_NoDup ms).
  - intros a Ha. rewrite <- Hp in Ha. by apply (collected_from_store ms params iter).
  - eexists. split; [reflexivity|]. done.
Qed.

Lemma parse_empty_query :
  parseNaturalLanguageQuery "" = Err "unable to parse any filters from query".
Proof. reflexivity. Qed.

(** X8: [filterByNaturalLanguage] answers 400, with no record, exactly
    when the translator fails; else it answers 200 with the records that
    pass the translated filters, each once, in non-decreasing order of
    creation, their number, and the query with the filters read from
    it. *)
Theorem filterByNaturalLanguage_spec (query : string) stringStore (resp : Response) :
  filterByNaturalLanguage query stringStore resp ->
  match parseNaturalLanguageQuery query with
  | Err msg =>
    Status resp = StatusBadRequest /\ dataOf resp = []
  | Ok parsedFilters =>
    let filterParams := convertParsedFiltersToParams parsedFilters in
    Status resp = StatusOK /\
    dataOf resp ≡ₚ filter (fun a => matchesFilters a filterParams = true)
                         (snd <$> map_to_list stringStore) /\
    StronglySorted (fun x y => CreatedAt x <= CreatedAt y) (dataOf resp) /\
    exists r, Payload resp = BList r /\
              Count r = Z.of_nat (length (Data r)) /\
              InterpretedQuery r
              = Some {| Original := query; ParsedFilters := parsedFilters |}
  end.
Proof.
  unfold filterByNaturalLanguage.
  destruct (String.eqb_spec query "") as [->|Hne].
  - intros ->. by rewrite parse_empty_query.
  - destruct (parseNaturalLanguageQuery query) as [parsedFilters|msg].
    + intros (iter & results & Hr & [Hp Hs] & ->). cbn zeta.
      cbn [dataOf Payload Data Status]. split; [done|]. split; [|split].
      * rewrite <- Hp, collect_filter. unfold rangeOrder in Hr. by rewrite Hr.
      * by apply sorted_notAfter_le.
      * eexists. split; [reflexivity|]. done.
    + intros ->. done.
Qed.

Lemma filtersAppliedOf_lookup (params : FilterParams) :
  filtersAppliedOf params !! "is_palindrome" = VBool <$> pIsPalindrome params /\
  filtersAppliedOf params !! "min_length" = VInt <$> pMinLength params /\
  filtersAppliedOf params !! "max_length" = VInt <$> pMaxLength params /\
  filtersAppliedOf params !! "word_count" = VInt <$> pWordCount params /\
  filtersAppliedOf params !! "contains_character" = VString <$> pContainsCharacter params /\
  (forall k, k ∉ ["word_count"; "is_palindrome"; "min_length"; "max_length";
                  "contains_character"] -> filtersAppliedOf params !! k = None).
Proof.
  destruct params as [[b|] [n1|] [n2|] [n3|] [c|]]; unfold filtersAppliedOf;
    cbn [pIsPalindrome pMinLength pMaxLength pWordCount pContainsCharacter];
    (split_and!;
     [by simplify_map_eq ..
     | intros k Hk;
       assert (k <> "word_count" /\ k <> "is_palindrome" /\ k <> "min_length" /\
               k <> "max_length" /\ k <> "contains_character") as (?&?&?&?&?)
         by (repeat split; intros ->; apply Hk; in_list);
       by simplify_map_eq ]).
Qed.

(** X9: the filters echoed by [getAllStrings] hold what was asked:
    reading them back with [convertParsedFiltersToParams] gives the
    parameters of the request. *)
Theorem filtersApplied_roundtrip (params : FilterParams) :
  convertParsedFiltersToParams (filtersAppliedOf params) = params.
Proof.
  destruct (filtersAppliedOf_lookup params) as (Hp & Hmin & Hmax & Hw & Hc & _).
  unfold convertParsedFiltersToParams. rewrite Hp, Hmin, Hmax, Hw, Hc.
  by destruct params as [[b|] [n1|] [n2|] [n3|] [c|]].
Qed.

(** X10: [convertParsedFiltersToParams] drops nothing of what the
    translator produces: every key of the parsed filters is one it reads,
    with a value of the type it asserts, so the parameters hold the same
    filters. *)
Theorem parsed_filters_all_applied (query : string) :
  filtersAppliedOf (convertParsedFiltersToParams (parsedFilters query))
  = parsedFilters query.
Proof.
  set (params := convertParsedFiltersToParams (parsedFilters query)).
  destruct (filtersAppliedOf_lookup params) as (Hp & Hmin & Hmax & Hw & Hc & Ho).
  pose proof (lookup_word_count query) as Lw.
  pose proof (lookup_is_palindrome query) as Lp.
  pose proof (lookup_min_length query) as Lmin.
  pose proof (lookup_max_length query) as Lmax.
  pose proof (lookup_contains_character query) as Lc.
  apply map_eq. intros k.
  destruct (decide (k ∈ ["word_count"; "is_palindrome"; "min_length"; "max_length";
                         "contains_character"])) as [Hin|Hout].
  - apply list_elem_of_In in Hin. cbn in Hin.
    destruct Hin as [<-|[<-|[<-|[<-|[<-|[]]]]]].
    + rewrite Hw. subst params. cbn [convertParsedFiltersToParams pWordCount].
      rewrite Lw. by repeat case_match.
    + rewrite Hp. subst params. cbn [convertParsedFiltersToParams pIsPalindrome].
      rewrite Lp. by repeat case_match.
    + rewrite Hmin. subst params. cbn [convertParsedFiltersToParams pMinLength].
      rewrite Lmin. by repeat case_match.
    + rewrite Hmax. subst params. cbn [convertParsedFiltersToParams pMaxLength].
      rewrite Lmax. by repeat case_match.
    + rewrite Hc. subst params. cbn [convertParsedFiltersToParams pContainsCharacter].
      rewrite Lc. by repeat case_match.
  - rewrite (Ho k Hout). symmetry. by apply lookup_other_key.
Qed.

End ListingProperties.

(** ** The filters and the translator *)

Lemma Sscanf_d_range tok : 0 <= fmt.Sscanf_d tok 0 <= fmt.MaxInt.
Proof.
  unfold fmt.Sscanf_d. assert (0 <= fmt.MaxInt) by (unfold fmt.MaxInt; lia).
  destruct tok as [|c t]; [lia|].
  destruct (fmt.allDigits (String c t)) eqn:Hd; cbn [andb]; [|lia].
  destruct (Z.leb_spec (fmt.decimal 0 (String c t)) fmt.MaxInt); [|lia].
  split; [|done]. by apply decimal_nonneg.
Qed.

Lemma findChar_letter s m :
  regexp.findChar s = Some m ->
  exists x, m = String x EmptyString /\ regexp.isLowerLetter x = true.
Proof.
  induction s as [|c s IH]; cbn [regexp.findChar].
  - destruct (regexp.charAt "") as [x|] eqn:Hat; [|done]. intros [= <-].
    apply charAt_sound in Hat as (? & ? & ? & ? & _ & _ & _ & _ & Hx). eauto.
  - destruct (regexp.charAt (String c s)) as [x|] eqn:Hat; [|exact IH]. intros [= <-].
    apply charAt_sound in Hat as (? & ? & ? & ? & _ & _ & _ & _ & Hx). eauto.
Qed.

(** ASCII strings and their lower case *)
Lemma lowerASCII_isASCII s :
  strings.isASCII s = true -> strings.isASCII (strings.lowerASCII s) = true.
Proof.
  induction s as [|c s IH]; [done|]. cbn [strings.isASCII strings.lowerASCII].
  intros [Hc Hs]%andb_true_iff. rewrite (IH Hs), andb_true_r.
  unfold utf8.RuneSelf in *. pose proof (byteZ_range c).
  destruct ((65 <=? byteZ c) && (byteZ c <=? 90)) eqn:Hu; [|done].
  rewrite byteZ_zbyte by lia. lia.
Qed.

Lemma lowerASCII_idem s :
  strings.lowerASCII (strings.lowerASCII s) = strings.lowerASCII s.
Proof.
  induction s as [|c s IH]; [done|]. cbn [strings.lowerASCII]. rewrite IH. f_equal.
  pose proof (byteZ_range c).
  destruct ((65 <=? byteZ c) && (byteZ c <=? 90)) eqn:Hu; [|by rewrite Hu].
  rewrite byteZ_zbyte by lia.
  destruct ((65 <=? byteZ c + 32) && (byteZ c + 32 <=? 90)) eqn:Hv; [lia|done].
Qed.

Section TranslatorProperties.
Context `{CaseRanges}.

Lemma ToLower_ascii s : strings.isASCII s = true -> ToLower s = strings.lowerASCII s.
Proof. intros Hs. unfold ToLower, strings.ToLower. by rewrite Hs. Qed.

Lemma ToLower_idem_ascii s : strings.isASCII s = true -> ToLower (ToLower s) = ToLower s.
Proof.
  intros Hs. rewrite (ToLower_ascii s Hs).
  rewrite ToLower_ascii by by apply lowerASCII_isASCII.
  apply lowerASCII_idem.
Qed.

Lemma matchesFilters_contains analyzed params c :
  pContainsCharacter params = Some c ->
  matchesFilters analyzed params = true ->
  is_Some (CharacterFrequencyMap (Properties analyzed) !! ToLower c).
Proof.
  intros Hc. unfold matchesFilters. rewrite Hc.
  repeat case_match; try done; eauto.
Qed.

(** X11: a [contains_character] filter is passed only when its
    lower-cased value is the encoding of exactly one rune, that rune
    occurs in the lower-cased value of the record, and it is none of
    space, tab and line feed: a filter of several characters, or one of
    those three, matches no record. *)
Theorem contains_character_one_rune (analyzed : AnalyzedString) (params : FilterParams)
    (c : string) :
  Properties analyzed = analyzeString (Value analyzed) ->
  pContainsCharacter params = Some c ->
  matchesFilters analyzed params = true ->
  exists r, runes (ToLower c) = [r] /\
            r ∈ runes (ToLower (Value analyzed)) /\
            r <> 32 /\ r <> 9 /\ r <> 10.
Proof.
  intros Hp Hc Hm. pose proof (matchesFilters_contains _ _ _ Hc Hm) as Hs.
  rewrite Hp in Hs. cbn [analyzeString CharacterFrequencyMap] in Hs.
  apply frequency_key in Hs as (r & Hr & Hk). exists r.
  pose proof (countedRunes_valid (Value analyzed)) as Hv. rewrite Forall_forall in Hv.
  rewrite Hk, runes_EncodeRune by auto. split; [done|].
  unfold countedRunes in Hr. by apply list_elem_of_filter in Hr as [(?&?&?) ?].
Qed.

(** X12: the values the translator can produce. [word_count] is 1, 2 or
    3; [is_palindrome] is only ever true; [min_length] is between 1 and
    the greatest int, or the least int after the overflow of [N + 1];
    [max_length] is between -1 and the greatest int less one;
    [contains_character] is one lower-case ASCII letter. The error has
    one message, and comes exactly with the empty map. *)
Theorem parsedFilters_values (query : string) :
  let filters := parsedFilters query in
  (forall v, filters !! "word_count" = Some v -> v ∈ [VInt 1; VInt 2; VInt 3]) /\
  (forall v, filters !! "is_palindrome" = Some v -> v = VBool true) /\
  (forall v, filters !! "min_length" = Some v ->
     exists n, v = VInt n /\ (1 <= n <= fmt.MaxInt \/ n = fmt.MinInt)) /\
  (forall v, filters !! "max_length" = Some v ->
     exists n, v = VInt n /\ -1 <= n < fmt.MaxInt) /\
  (forall v, filters !! "contains_character" = Some v ->
     exists x, v = VString (String x EmptyString) /\ regexp.isLowerLetter x = true) /\
  (forall msg, parseNaturalLanguageQuery query = Err msg ->
               msg = "unable to parse any filters from query" /\ filters = ∅) /\
  (forall parsed, parseNaturalLanguageQuery query = Ok parsed ->
                  parsed = filters /\ filters <> ∅).
Proof.
  cbn zeta. split_and!.
  - intros v. rewrite lookup_word_count.
    repeat case_match; intros [= <-]; in_list.
  - intros v. rewrite lookup_is_palindrome. by case_match; intros [= <-].
  - intros v. rewrite lookup_min_length.
    destruct (regexp.findDigits _ _) as [m1|]; [|done]. intros [= <-].
    eexists. split; [done|]. pose proof (Sscanf_d_range m1) as Hr.
    destruct (decide (fmt.Sscanf_d m1 0 = fmt.MaxInt)) as [->|Hne].
    + right. vm_compute. reflexivity.
    + left. rewrite wrapInt_small; unfold fmt.MinInt, fmt.MaxInt in *; lia.
  - intros v. rewrite lookup_max_length.
    destruct (regexp.findDigits _ _) as [m1|]; [|done]. intros [= <-].
    eexists. split; [done|]. pose proof (Sscanf_d_range m1) as Hr.
    rewrite wrapInt_small; unfold fmt.MinInt, fmt.MaxInt in *; lia.
  - intros v. rewrite lookup_contains_character.
    repeat case_match; intros [= <-].
    + by exists "a"%char.
    + by exists "u"%char.
    + match goal with Hf : regexp.findChar _ = Some _ |- _ =>
        apply findChar_letter in Hf as (x & -> & Hx) end. eauto.
  - intros msg. unfold parseNaturalLanguageQuery.
    destruct (Nat.eqb_spec (size (parsedFilters query)) 0) as [Hs|Hs]; [|done].
    intros [= <-]. split; [done|]. by apply map_size_empty_iff.
  - intros parsed. unfold parseNaturalLanguageQuery.
    destruct (Nat.eqb_spec (size (parsedFilters query)) 0) as [Hs|Hs]; [done|].
    intros [= <-]. split; [done|]. intros He. by rewrite He, map_size_empty in Hs.
Qed.

(** X13: the translator does not tell the ASCII letter case of a query
    apart: a query made of ASCII bytes and its lower-cased form give the
    same filters, or both the error. *)
Theorem parse_ascii_case_insensitive (query : string) :
  strings.isASCII query = true ->
  parseNaturalLanguageQuery (strings.lowerASCII query) = parseNaturalLanguageQuery query.
Proof.
  intros Hq. rewrite <- (ToLower_ascii query Hq).
  unfold parseNaturalLanguageQuery, parsedFilters. by rewrite ToLower_idem_ascii.
Qed.

End TranslatorProperties.

(** ** Runes, bytes and [strings.Map] *)

(** The lower case of an ASCII byte, as [ToLower] writes it. *)

(** ** Runes and bytes *)

Lemma skip_zero t : skip t 0 = t.
Proof. by destruct t. Qed.

Lemma runes_length_le s : (length (runes s) <= String.length s)%nat.
Proof.
  remember (String.length s) as n eqn:Hn.
  revert s Hn. induction (lt_wf n) as [n _ IH]. intros s Hn.
  destruct s as [|c t]; [cbn; lia|]. cbn [runes].
  destruct (utf8.DecodeRuneInString (String c t)) as [r w]. cbn [length].
  pose proof (skip_length t (Nat.pred w)) as Hs.
  specialize (IH (String.length (skip t (Nat.pred w)))).
  cbn [String.length] in Hn. subst n.
  specialize (IH ltac:(lia) _ eq_refl). cbn [String.length]. lia.
Qed.

Lemma runes_nil s : runes s = [] <-> s = EmptyString.
Proof.
  split; [|by intros ->]. destruct s as [|c t]; [done|]. cbn [runes].
  by destruct (utf8.DecodeRuneInString (String c t)).
Qed.

Lemma bytes_length s : length (bytes s) = String.length s.
Proof. induction s as [|c s IH]; cbn; [done|]. by rewrite IH. Qed.

Lemma runes_ascii_bytes s : strings.isASCII s = true -> runes s = bytes s.
Proof.
  induction s as [|c s IH]; [done|]. cbn [strings.isASCII].
  intros [Hc Hs]%andb_true_iff. cbn [runes bytes utf8.DecodeRuneInString].
  rewrite Hc. cbn [Nat.pred]. by rewrite skip_zero, IH.
Qed.

Lemma bytes_list_ascii s : bytes s = byteZ <$> list_ascii_of_string s.
Proof. induction s as [|c s IH]; cbn; [done|]. by rewrite IH. Qed.

Lemma lowerASCII_list_ascii s :
  list_ascii_of_string (strings.lowerASCII s) = lowerByte <$> list_ascii_of_string s.
Proof. induction s as [|c s IH]; cbn; [done|]. by rewrite IH. Qed.

Lemma lowerASCII_length s : String.length (strings.lowerASCII s) = String.length s.
Proof. induction s as [|c s IH]; cbn; [done|]. by rewrite IH. Qed.

Lemma byteZ_inj c1 c2 : byteZ c1 = byteZ c2 -> c1 = c2.
Proof. intros Heq. by rewrite <- (zbyte_byteZ c1), <- (zbyte_byteZ c2), Heq. Qed.

(** ** An encoded rune followed by more bytes *)

Lemma DecodeRune_EncodeRune_app r rest :
  validRune r ->
  utf8.DecodeRuneInString (utf8.EncodeRune r +:+ rest)
  = (r, String.length (utf8.EncodeRune r)).
Proof.
  intros Hv. rewrite EncodeRune_stringOfBytes by done.
  destruct Hv as [Hr Hs].
  unfold utf8.MaxRune, utf8.surrogateMin, utf8.surrogateMax in *.
  unfold encodedBytes.
  repeat match goal with
         | |- context [?a <=? ?b] => destruct (Z.leb_spec a b)
         end; cbn [stringOfBytes fold_right]; sapp;
    unfold utf8.DecodeRuneInString; cbn [byteAt String.length];
    repeat (rewrite byteZ_zbyte by dlia);
    unfold utf8.first, utf8.RuneSelf, utf8.RuneError, utf8.locb, utf8.hicb,
      utf8.mask2, utf8.mask3, utf8.mask4, utf8.maskx;
    repeat match goal with
           | |- context [?a <=? ?b] => destruct (Z.leb_spec a b); try dlia
           | |- context [?a <? ?b] => destruct (Z.ltb_spec a b); try dlia
           | |- context [?a =? ?b] => destruct (Z.eqb_spec a b); try dlia
           end; cbn [orb andb Nat.ltb Nat.leb];
    rewrite ?decode2, ?decode3, ?decode4; f_equal; dlia.
Qed.

Lemma runes_EncodeRune_app r rest :
  validRune r -> runes (utf8.EncodeRune r +:+ rest) = r :: runes rest.
Proof.
  intros Hv. pose proof (DecodeRune_EncodeRune_app r rest Hv) as Hd.
  destruct (utf8.EncodeRune r) as [|c t] eqn:He.
  - unfold utf8.EncodeRune, utf8.encode3 in He. repeat case_match; discriminate.
  - rewrite sapp_cons in *. cbn [runes]. rewrite Hd. cbn [String.length Nat.pred].
    by rewrite skip_app.
Qed.

Lemma validRune_RuneError : validRune utf8.RuneError.
Proof. unfold validRune, utf8.RuneError, utf8.MaxRune, utf8.surrogateMin, utf8.surrogateMax. lia. Qed.

Lemma EncodeRune_invalid r :
  ~ validRune r -> utf8.EncodeRune r = utf8.EncodeRune utf8.RuneError.
Proof.
  unfold validRune, utf8.MaxRune, utf8.surrogateMin, utf8.surrogateMax. intros Hn.
  unfold utf8.EncodeRune at 1.
  unfold utf8.rune1Max, utf8.rune2Max, utf8.rune3Max, utf8.MaxRune,
    utf8.surrogateMin, utf8.surrogateMax.
  repeat match goal with
         | |- context [?a <=? ?b] => destruct (Z.leb_spec a b); cbn [andb orb]
         | |- context [?a <? ?b] => destruct (Z.ltb_spec a b); cbn [andb orb]
         end; try lia; reflexivity.
Qed.

(** What [range] reads back from an encoded rune. *)
Lemma runes_EncodeRune_any r rest :
  exists r', runes (utf8.EncodeRune r +:+ rest) = r' :: runes rest /\
             (r' = r \/ r' = utf8.RuneError).
Proof.
  destruct (Z_le_dec 0 r) as [H0|H0];
    [destruct (Z_le_dec r utf8.MaxRune) as [H1|H1];
     [destruct (Z_le_dec utf8.surrogateMin r) as [H2|H2];
      [destruct (Z_le_dec r utf8.surrogateMax) as [H3|H3]|]|]|].
  all: try (exists r; split; [|by left]; apply runes_EncodeRune_app;
            unfold validRune; lia).
  all: exists utf8.RuneError; (split; [|by right]);
    rewrite EncodeRune_invalid by (unfold validRune; lia);
    apply runes_EncodeRune_app, validRune_RuneError.
Qed.

(** The runes of [strings.Map]. *)
Lemma runes_Map_elem (mapping : rune -> rune) (s : string) r' :
  r' ∈ runes (strings.Map mapping s) ->
  r' = utf8.RuneError \/ exists c, c ∈ runes s /\ r' = mapping c.
Proof.
  unfold strings.Map. generalize (runes s). intros l.
  set (g := fun c => let r := mapping c in
                     if r <? 0 then EmptyString else utf8.EncodeRune r).
  induction l as [|c l IH]; cbn [map concatStrings]; [by intros ?%elem_of_nil|].
  unfold g at 1. cbv zeta. destruct (mapping c <? 0).
  - rewrite sapp_nil_l. intros [?|(c' & ? & ?)]%IH; [by left|].
    right. exists c'. split; [by right|done].
  - destruct (runes_EncodeRune_any (mapping c) (concatStrings (map g l)))
      as (r0 & -> & Hr0).
    intros [->|Hin]%elem_of_cons.
    + destruct Hr0 as [->| ->]; [|by left]. right. exists c. split; [by left|done].
    + apply IH in Hin as [?|(c' & ? & ?)]; [by left|].
      right. exists c'. split; [by right|done].
Qed.

Lemma runes_Map_length (mapping : rune -> rune) (s : string) :
  (length (runes (strings.Map mapping s)) <= length (runes s))%nat.
Proof.
  unfold strings.Map. generalize (runes s). intros l.
  set (g := fun c => let r := mapping c in
                     if r <? 0 then EmptyString else utf8.EncodeRune r).
  induction l as [|c l IH]; cbn [map concatStrings]; [cbn; lia|].
  unfold g at 1. cbv zeta. destruct (mapping c <? 0).
  - rewrite sapp_nil_l. cbn [length]. lia.
  - destruct (runes_EncodeRune_any (mapping c) (concatStrings (map g l)))
      as (r0 & -> & _).
    cbn [length]. lia.
Qed.

Section LowerCase.
Context `{CaseRanges}.

Lemma ToLower_runes_length s : (length (runes (ToLower s)) <= length (runes s))%nat.
Proof.
  unfold ToLower, strings.ToLower. destruct (strings.isASCII s) eqn:Ha.
  - rewrite !runes_ascii_bytes by (done || by apply lowerASCII_isASCII).
    by rewrite !bytes_length, lowerASCII_length.
  - apply runes_Map_length.
Qed.

End LowerCase.

(** ** The analysis of a string *)

Lemma chunks_runes s : fst <$> chunks s = runes s.
Proof.
  remember (String.length s) as n eqn:Hn.
  revert s Hn. induction (lt_wf n) as [n _ IH]. intros s Hn.
  destruct s as [|c t]; [done|]. cbn [runes chunks].
  destruct (utf8.DecodeRuneInString (String c t)) as [r w]. rewrite fmap_cons. cbn [fst].
  f_equal. pose proof (skip_length t (Nat.pred w)) as Hs.
  apply (IH (String.length (skip t (Nat.pred w)))); [|done].
  subst n. cbn [String.length]. lia.
Qed.

Lemma fieldsFrom_bound cur cs :
  (2 * length (strings.fieldsFrom cur cs)
   <= length cs + match cur with Some _ => 2 | None => 1 end)%nat.
Proof.
  revert cur. induction cs as [|[r b] cs IH]; intros cur; cbn [strings.fieldsFrom].
  - destruct cur; cbn; lia.
  - destruct (unicode.IsSpace r).
    + destruct cur; cbn [length]; specialize (IH None); cbn in IH; lia.
    + match goal with |- context [strings.fieldsFrom (Some ?w) cs] =>
        specialize (IH (Some w)) end.
      cbn [length]. destruct cur; lia.
Qed.

Lemma fieldsFrom_Some_nonempty w cs : strings.fieldsFrom (Some w) cs <> [].
Proof.
  revert w. induction cs as [|[r b] cs IH]; intros w; cbn [strings.fieldsFrom]; [done|].
  destruct (unicode.IsSpace r); [done|apply IH].
Qed.

Lemma fieldsFrom_None_nil cs :
  strings.fieldsFrom None cs = [] <-> Forall (fun rb => unicode.IsSpace (fst rb) = true) cs.
Proof.
  induction cs as [|[r b] cs IH]; cbn [strings.fieldsFrom]; [by split|].
  destruct (unicode.IsSpace r) eqn:Hr.
  - rewrite IH. split; [by constructor|by intros [_ ?]%Forall_cons].
  - split; [by intros ?%fieldsFrom_Some_nonempty|].
    intros [Hc _]%Forall_cons. cbn in Hc. congruence.
Qed.

Lemma remove_dups_length_le {A} `{EqDecision A} (l : list A) :
  (length (remove_dups l) <= length l)%nat.
Proof.
  induction l as [|x l IH]; cbn; [lia|]. destruct (decide_rel _ _ _); cbn; lia.
Qed.

Lemma removeSpaceRuns_app a b :
  regexp.removeSpaceRuns (a +:+ b) = regexp.removeSpaceRuns a +:+ regexp.removeSpaceRuns b.
Proof.
  induction a as [|c a IH]; sapp; [done|]. cbn [regexp.removeSpaceRuns].
  destruct (regexp.isPerlSpace c); sapp; by rewrite IH.
Qed.

Lemma removeSpaceRuns_idem s :
  regexp.removeSpaceRuns (regexp.removeSpaceRuns s) = regexp.removeSpaceRuns s.
Proof.
  induction s as [|c s IH]; [done|]. cbn [regexp.removeSpaceRuns].
  destruct (regexp.isPerlSpace c) eqn:Hc; [done|].
  cbn [regexp.removeSpaceRuns]. by rewrite Hc, IH.
Qed.

Lemma removeSpaceRuns_isASCII s :
  strings.isASCII s = true -> strings.isASCII (regexp.removeSpaceRuns s) = true.
Proof.
  induction s as [|c s IH]; [done|]. cbn [strings.isASCII regexp.removeSpaceRuns].
  intros [Hc Hs]%andb_true_iff. destruct (regexp.isPerlSpace c); [by apply IH|].
  cbn [strings.isASCII]. by rewrite Hc, IH.
Qed.

Lemma fmap_rev {A B} (f : A -> B) (l : list A) : f <$> rev l = rev (f <$> l).
Proof. rewrite !rev_alt. apply (fmap_reverse f). Qed.

Section AnalyzerProperties.
Context `{CaseRanges}.

(** X14: the bounds between the properties of one analysis: the number
    of distinct characters is at most the sum of the frequencies, which is
    at most the length in runes, which is at most the length in bytes; a
    string of [n] runes has at most [(n + 1) / 2] words. *)
Theorem analyzeString_bounds (value : string) :
  let props := analyzeString value in
  0 <= UniqueCharacters props <= sumValues (CharacterFrequencyMap props) /\
  sumValues (CharacterFrequencyMap props) <= Length props /\
  Length props <= len value /\
  0 <= WordCount props /\ 2 * WordCount props <= Length props + 1.
Proof.
  cbn zeta. cbn [analyzeString UniqueCharacters CharacterFrequencyMap Length WordCount].
  rewrite countUniqueCharacters_distinct, buildCharacterFrequencyMap_fold, sumValues_fold,
    length_fmap.
  unfold sumValues. rewrite map_fold_empty.
  unfold RuneCountInString, countWords, strings.Fields, len.
  pose proof (remove_dups_length_le (countedRunes value)).
  assert (length (countedRunes value) <= length (runes (ToLower value)))%nat
    by (unfold countedRunes; apply length_filter).
  pose proof (ToLower_runes_length value).
  pose proof (runes_length_le value).
  pose proof (fieldsFrom_bound None (chunks value)) as Hf. cbv iota in Hf.
  rewrite <- (chunks_runes value), length_fmap in *. lia.
Qed.

(** X15: the length is zero for the empty string only, and is the
    number of bytes for a string of ASCII bytes. *)
Theorem length_of_bytes (value : string) :
  (Length (analyzeString value) = 0 <-> value = EmptyString) /\
  (strings.isASCII value = true -> Length (analyzeString value) = len value).
Proof.
  cbn [analyzeString Length]. unfold RuneCountInString, len. split.
  - rewrite <- runes_nil. destruct (runes value); cbn; split; (done || lia).
  - intros Ha. by rewrite runes_ascii_bytes, bytes_length.
Qed.

(** X16: [countWords] is zero exactly when every rune of the string is
    white space for [unicode.IsSpace]. *)
Theorem countWords_zero (s : string) :
  countWords s = 0 <-> Forall (fun r => unicode.IsSpace r = true) (runes s).
Proof.
  unfold countWords, strings.Fields. rewrite <- chunks_runes, Forall_fmap.
  rewrite <- fieldsFrom_None_nil.
  destruct (strings.fieldsFrom None (chunks s)); cbn; split; (done || lia).
Qed.

(** X17: the palindrome test does not see the bytes that [\s] matches:
    a run of them put anywhere into a string, and the removal of all of
    them, leave the answer as it is. *)
Theorem checkPalindrome_ignores_spaces (a ws b : string) :
  regexp.removeSpaceRuns ws = EmptyString ->
  checkPalindrome (a +:+ ws +:+ b) = checkPalindrome (a +:+ b) /\
  checkPalindrome (regexp.removeSpaceRuns (a +:+ b)) = checkPalindrome (a +:+ b).
Proof.
  intros Hws. unfold checkPalindrome, cleaned. split.
  - by rewrite !removeSpaceRuns_app, Hws, sapp_nil_l.
  - by rewrite removeSpaceRuns_idem.
Qed.

(** X18: on a string of ASCII bytes the palindrome test is a test on
    bytes: the bytes other than tab, line feed, form feed, carriage return
    and space, with the upper-case letters made lower-case, read the same
    in both directions. *)
Theorem checkPalindrome_ascii (s : string) :
  strings.isASCII s = true ->
  let letters := lowerByte <$> filter (fun c => c ∉ perlSpaces) (list_ascii_of_string s) in
  checkPalindrome s = true <-> letters = rev letters.
Proof.
  intros Ha. cbn zeta. rewrite checkPalindrome_decide, bool_decide_eq_true.
  unfold cleaned. pose proof (removeSpaceRuns_isASCII s Ha) as Hr.
  rewrite ToLower_ascii by done.
  rewrite runes_ascii_bytes by by apply lowerASCII_isASCII.
  rewrite bytes_list_ascii, lowerASCII_list_ascii, removeSpaceRuns_filter.
  generalize (lowerByte <$> filter (fun c => c ∉ perlSpaces) (list_ascii_of_string s)).
  intros l. rewrite <- fmap_rev. split; [|by intros <-].
  assert (Inj (=) (=) byteZ) by (intros x y; apply byteZ_inj).
  apply (inj (fmap byteZ)).
Qed.

(** X19: every count of the frequency map is at least 1 and at most
    the length of the string in runes, and no key is the space, the tab or
    the line feed. *)
Theorem frequency_counts (s k : string) (n : Z) :
  buildCharacterFrequencyMap s !! k = Some n ->
  1 <= n <= Length (analyzeString s) /\
  k ∉ [" "; String "009"%char EmptyString; String "010"%char EmptyString].
Proof.
  intros Hl. assert (is_Some (buildCharacterFrequencyMap s !! k)) as Hs by eauto.
  apply frequency_key in Hs as (r & Hr & ->).
  rewrite (frequency_of_counted s r Hr) in Hl. injection Hl as <-.
  pose proof (countedRunes_valid s) as Hv. rewrite Forall_forall in Hv.
  pose proof (Hv r Hr) as Hvr.
  split.
  - cbn [analyzeString Length]. unfold RuneCountInString.
    assert (r ∈ filter (eq r) (countedRunes s)) as Hin
      by (apply list_elem_of_filter; split; [reflexivity|assumption]).
    pose proof (length_filter (eq r) (countedRunes s)).
    assert (length (countedRunes s) <= length (runes (ToLower s)))%nat
      by (unfold countedRunes; apply length_filter).
    pose proof (ToLower_runes_length s).
    destruct (filter (eq r) (countedRunes s)); [by apply elem_of_nil in Hin|].
    cbn [length] in *. lia.
  - unfold countedRunes in Hr. apply list_elem_of_filter in Hr as [(H1 & H2 & H3) Hr].
    intros Hin. apply list_elem_of_In in Hin. cbn in Hin.
    destruct Hin as [Heq|[Heq|[Heq|[]]]];
      apply (f_equal runes) in Heq; rewrite runes_EncodeRune in Heq by auto;
      vm_compute in Heq; congruence.
Qed.

(** X20: no key of the frequency map is an upper-case ASCII letter,
    given that the case table sends no rune beyond ASCII to one. *)
Theorem frequency_keys_lower_case (s k : string) (c : ascii) :
  (forall r, unicode.MaxASCII < r -> ~ (65 <= To_LowerCase r <= 90)) ->
  is_Some (buildCharacterFrequencyMap s !! k) ->
  k = String c EmptyString ->
  ~ (65 <= byteZ c <= 90).
Proof.
  intros Htable Hs ->. apply frequency_key in Hs as (r & Hr & Hk).
  pose proof (countedRunes_valid s) as Hv. rewrite Forall_forall in Hv.
  apply (f_equal runes) in Hk. rewrite runes_EncodeRune in Hk by (by apply Hv).
  unfold countedRunes in Hr. apply list_elem_of_filter in Hr as [_ Hr].
  intros Hc.
  assert (runes (String c "") = [byteZ c]) as Hrc.
  { apply runes_ascii_bytes. cbn. unfold utf8.RuneSelf. lia. }
  rewrite Hrc in Hk. injection Hk as <-.
  unfold ToLower, strings.ToLower in Hr. destruct (strings.isASCII s) eqn:Ha.
  - rewrite runes_ascii_bytes, bytes_list_ascii, lowerASCII_list_ascii in Hr
      by by apply lowerASCII_isASCII.
    apply list_elem_of_fmap in Hr as (c' & Hc' & Hin).
    apply byteZ_inj in Hc'. subst c. apply list_elem_of_fmap in Hin as (c0 & -> & _).
    unfold lowerByte in Hc. pose proof (byteZ_range c0).
    destruct ((65 <=? byteZ c0) && (byteZ c0 <=? 90)) eqn:Hu; [|lia].
    rewrite byteZ_zbyte in Hc by lia. lia.
  - apply runes_Map_elem in Hr as [Hr|(c0 & _ & Hr)].
    + unfold utf8.RuneError in Hr. lia.
    + unfold unicode_ToLower in Hr.
      destruct (Z.leb_spec c0 unicode.MaxASCII).
      * destruct ((65 <=? c0) && (c0 <=? 90)) eqn:Hu; lia.
      * specialize (Htable c0). lia.
Qed.

(** X21: the loop of [checkPalindrome] reads no index outside the
    slice, whatever the slice, and answers true exactly when the slice
    reads the same in both directions. *)
Theorem palindromeRun_in_range (rs : list rune) :
  exists b, palindromeRun rs = Some b /\ (b = true <-> rs = rev rs).
Proof.
  exists (bool_decide (rs = rev rs)). split; [apply palindromeRun_spec|].
  apply bool_decide_eq_true.
Qed.

End AnalyzerProperties.

(** * The claims on concrete inputs *)

#[local] Existing Instance noCaseRanges.

(** ** Witnesses *)

Lemma checkPalindrome_spec_witness :
  checkPalindrome "  " = true.
Proof.
  apply (proj2 (proj2 (checkPalindrome_spec "  "))).
  reflexivity.
Defined.

Lemma counting_spec_witness :
  buildCharacterFrequencyMap "a a" !! utf8.EncodeRune 97 = Some 2.
Proof.
  apply (proj1 (proj2 (counting_spec "a a")) 97).
  vm_compute. left.
Defined.

Lemma hello_world_counts :
  countUniqueCharacters "hello world" = 7 /\
  size (buildCharacterFrequencyMap "hello world") = 7%nat /\
  sumValues (buildCharacterFrequencyMap "hello world") = 10.
Proof. repeat split; vm_compute; reflexivity. Qed.

Lemma matchesFilters_spec_witness :
  matchesFilters (newRecord "radar" 0)
    {| pIsPalindrome := Some true; pMinLength := Some 5; pMaxLength := Some 5;
       pWordCount := Some 1; pContainsCharacter := Some "D" |} = true.
Proof.
  apply (proj1 (matchesFilters_spec _ _)). cbn zeta.
  repeat split; intros ? [= <-]; vm_compute; (reflexivity || eauto || discriminate).
Defined.

Lemma parsedFilters_by_key_witness :
  parsedFilters "single word palindromes" !! "sort" = None.
Proof.
  apply (parsedFilters_by_key "single word palindromes").
  apply (bool_decide_unpack _). vm_compute. exact I.
Defined.

Lemma length_rules_spec_witness :
  parsedFilters "longer than 10" !! "min_length" = Some (VInt 11).
Proof.
  apply (proj1 (length_rules_spec "longer than 10" "" "10" "")).
  - split; [split; [reflexivity|]|].
    + split; [discriminate|]. split; [reflexivity|exact I].
    + intros pre' ds' post' _. cbn. lia.
  - vm_compute. discriminate.
Defined.

Lemma parse_error_spec_witness : ~ patternMatches "gibberish xyzzy".
Proof.
  apply (proj1 (proj1 (parse_error_spec "gibberish xyzzy"))).
  eexists. reflexivity.
Defined.

Lemma createString_duplicate_witness :
  let stringStore := storeAfter [Create (Some {| ReqValue := "radar" |}) 3] in
  createString (Some {| ReqValue := "radar" |}) 7 stringStore
  = (JSON StatusConflict (BError "String already exists in the system"), stringStore).
Proof.
  cbn zeta. apply (proj1 (createString_duplicate _ _ 0 _)).
  vm_compute. eauto.
Defined.

Lemma stored_record_invariant_witness :
  "ba7816bf8f01cfea414140de5dae2223b00361a396177a9cb410ff61f20015ad"
  = ID (newRecord "abc" 0).
Proof.
  apply (stored_record_invariant [Create (Some {| ReqValue := "abc" |}) 0]).
  vm_compute. reflexivity.
Defined.

Lemma getAllStrings_order_witness :
  let stringStore := storeAfter [Create (Some {| ReqValue := "b" |}) 1;
                                 Create (Some {| ReqValue := "a" |}) 2;
                                 Create (Some {| ReqValue := "c" |}) 3] in
  Value <$> dataOf (listResponse noFilter (listAllRun noFilter stringStore))
  = ["b"; "a"; "c"].
Proof.
  cbn zeta. apply (proj2 getAllStrings_order 1 2 3); [lia|].
  apply listAllRun_admissible.
Defined.

(** ** Counterexamples *)

(** C1, as stated, fails on ["a" ++ verticalTab]: the vertical tab is
    white space, without it the string is the palindrome ["a"], but [\s]
    does not match it and the code compares ['a'] with the tab. *)
Lemma checkPalindrome_whitespace_counterexample :
  checkPalindrome ("a" +:+ verticalTab) = false /\
  claimedPalindrome ("a" +:+ verticalTab).
Proof. split; vm_compute; reflexivity. Qed.

(** C2, as stated, fails on ["single word two word"]: the rule for two
    words comes later and matches, yet [word_count] is 1, because the
    three word-count rules are the branches of one conditional; likewise
    ["first vowel last vowel"] gives ["a"], not ["u"]. *)
Lemma last_rule_wins_counterexample :
  (claimedFilters "single word two word" !! "word_count" = Some (VInt 2) /\
   parsedFilters "single word two word" !! "word_count" = Some (VInt 1)) /\
  (claimedFilters "first vowel last vowel" !! "contains_character" = Some (VString "u") /\
   parsedFilters "first vowel last vowel" !! "contains_character" = Some (VString "a")).
Proof. repeat split; vm_compute; reflexivity. Qed.

(** C7, as stated, fails for a number beyond the range of [int]: the scan
    fails, its error is dropped and the variable keeps its zero. *)
Lemma longer_than_overflow_counterexample :
  let query := "longer than 9223372036854775808" in
  leftmostMatch "longer than " (ToLower query) "" "9223372036854775808" "" /\
  parsedFilters query !! "min_length" = Some (VInt 1) /\
  parsedFilters query !! "min_length" <> Some (VInt (9223372036854775808 + 1)).
Proof.
  cbn zeta. split; [|split].
  - split; [split; [reflexivity|]|].
    + split; [discriminate|]. split; [reflexivity|exact I].
    + intros pre' ds' post' _. cbn. lia.
  - vm_compute. reflexivity.
  - vm_compute. discriminate.
Qed.


(** C3, as stated, fails when two records are created at the same
    instant: ["b"] was inserted before ["a"], and a listing that gives
    ["a"] first is one the handler can produce. *)
Lemma getAllStrings_tie_counterexample :
  exists resp,
    getAllStrings (Some noFilter)
      (storeAfter [Create (Some {| ReqValue := "b" |}) 0;
                   Create (Some {| ReqValue := "a" |}) 0]) resp /\
    Value <$> dataOf resp = ["a"; "b"].
Proof.
  exists (listResponse noFilter [newRecord "a" 0; newRecord "b" 0]).
  split; [|reflexivity].
  apply tie_listing. vm_compute. discriminate.
Qed.

(** ** Examples *)

(** A carriage return is counted, a line feed is not. *)
Example counting_carriage_return :
  let s := "a" +:+ String "013"%char (String "010"%char "A") in
  countUniqueCharacters s = 2 /\
  buildCharacterFrequencyMap s
  = {[ "a" := 2; String "013"%char EmptyString := 1 ]}.
Proof. split; vm_compute; reflexivity. Qed.

(** The UTF-8 codec on four bytes, and the SHA-256 test vectors. *)
Example runes_ascii : runes "aB c" = [97; 66; 32; 99].
Proof. reflexivity. Qed.

Example length_counts_runes :
  analyzeString (utf8.EncodeRune 0x1F600) = analyzeString (stringOfBytes [240; 159; 152; 128])
  /\ Length (analyzeString (utf8.EncodeRune 0x1F600)) = 1.
Proof. split; vm_compute; reflexivity. Qed.

Example sha256_abc :
  calculateSHA256 "abc"
  = "ba7816bf8f01cfea414140de5dae2223b00361a396177a9cb410ff61f20015ad".
Proof. vm_compute. reflexivity. Qed.

Example sha256_empty :
  calculateSHA256 ""
  = "e3b0c44298fc1c149afbf4c8996fb92427ae41e4649b934ca495991b7852b855".
Proof. vm_compute. reflexivity. Qed.

Example sha256_two_blocks :
  fmt.Sprintf_x (sha256.Sum256 (repeat 97 200))
  = "c2a908d98f5df987ade41b5fce213067efbcc21ef2240212a41e54b5e7c28ae5".
Proof. vm_compute. reflexivity. Qed.

(** The analyzer on the strings of the specification. *)
Example palindrome_examples :
  checkPalindrome "racecar" = true /\ checkPalindrome "Race Car" = true /\
  checkPalindrome "hello" = false /\ checkPalindrome "" = true.
Proof. repeat split; vm_compute; reflexivity. Qed.

Example countWords_examples :
  countWords "hello world" = 2 /\ countWords "   " = 0 /\ countWords "one" = 1.
Proof. repeat split; vm_compute; reflexivity. Qed.

Example frequency_example : buildCharacterFrequencyMap "a a" = {[ "a" := 2 ]}.
Proof. vm_compute. reflexivity. Qed.

(** The regular expressions. *)
Example findDigits_example :
  regexp.findDigits "longer than " "strings longer than 10 characters" = Some "10".
Proof. reflexivity. Qed.

Example findChar_backtracks : regexp.findChar "strings with the 5" = Some "t".
Proof. reflexivity. Qed.

Example findChar_after_the : regexp.findChar "that contain the letter 'z'" = Some "l".
Proof. reflexivity. Qed.

Example findChar_quoted : regexp.findChar "that contain letter 'z'" = Some "z".
Proof. reflexivity. Qed.

(** The translator. *)
Example translate_single_word_palindromes :
  parseNaturalLanguageQuery "single word palindromes"
  = Ok {[ "word_count" := VInt 1; "is_palindrome" := VBool true ]}.
Proof. vm_compute. reflexivity. Qed.

Example translate_upper_case :
  parseNaturalLanguageQuery "Strings SHORTER than 20"
  = Ok {[ "max_length" := VInt 19 ]}.
Proof. vm_compute. reflexivity. Qed.

(** [N + 1] wraps around at the largest [int]. *)
Example longer_than_MaxInt :
  parsedFilters "longer than 9223372036854775807" !! "min_length"
  = Some (VInt fmt.MinInt).
Proof. vm_compute. reflexivity. Qed.

(** The filter engine on the three records of the specification. *)
Example filter_and_combination :
  let both := {| pIsPalindrome := Some true; pMinLength := None; pMaxLength := None;
                 pWordCount := Some 1; pContainsCharacter := None |} in
  let exact5 := {| pIsPalindrome := Some true; pMinLength := Some 5;
                   pMaxLength := Some 5; pWordCount := Some 1;
                   pContainsCharacter := None |} in
  let atMost4 := {| pIsPalindrome := Some true; pMinLength := None;
                    pMaxLength := Some 4; pWordCount := Some 1;
                    pContainsCharacter := None |} in
  let records := [newRecord "radar" 1; newRecord "hello world" 2; newRecord "level" 3] in
  Value <$> filter (fun a => matchesFilters a both = true) records = ["radar"; "level"] /\
  Value <$> filter (fun a => matchesFilters a exact5 = true) records = ["radar"; "level"] /\
  Value <$> filter (fun a => matchesFilters a atMost4 = true) records = [].
Proof. repeat split; vm_compute; reflexivity. Qed.

(** The store: a value is found after its creation and not after its
    deletion. *)
Example create_get_delete :
  let created := storeAfter [Create (Some {| ReqValue := "radar" |}) 1] in
  let deleted := storeAfter [Create (Some {| ReqValue := "radar" |}) 1; Delete "radar"] in
  getString "radar" created = JSON StatusOK (BRecord (newRecord "radar" 1)) /\
  Status (getString "radar" deleted) = StatusNotFound.
Proof. split; vm_compute; reflexivity. Qed.

Example sha256_constants :
  length sha256.K = 64%nat /\ nth 0 sha256.K 0 = 0x428a2f98 /\
  nth 63 sha256.K 0 = 0xc67178f2 /\ sha256.h0 sha256.init = 0x6a09e667.
Proof. repeat split. Qed.

(** ** Further properties on concrete inputs *)

(** A response that [filterByNaturalLanguage] can give, computed: the
    insertion sort of the entries in the order of [map_to_list]. *)
Lemma filterRun_admissible (query : string) parsedFilters
    (stringStore : gmap string AnalyzedString) :
  query <> EmptyString ->
  parseNaturalLanguageQuery query = Ok parsedFilters ->
  let results := listAllRun (convertParsedFiltersToParams parsedFilters) stringStore in
  filterByNaturalLanguage query stringStore
    (JSON StatusOK
       (BList {| Data := results;
                 Count := Z.of_nat (length results);
                 FiltersApplied := ∅;
                 InterpretedQuery :=
                   Some {| Original := query; ParsedFilters := parsedFilters |} |})).
Proof.
  intros Hne Hp. cbn zeta. unfold filterByNaturalLanguage.
  destruct (String.eqb_spec query "") as [->|_]; [done|]. rewrite Hp. cbn zeta.
  eexists (map_to_list stringStore), _.
  split; [by unfold rangeOrder|]. split; [apply insertionSort_sort_Slice|done].
Qed.

Lemma create_then_delete_witness :
  let stringStore := storeAfter [Create (Some {| ReqValue := "level" |}) 1] in
  snd (deleteString "radar"
         (snd (createString (Some {| ReqValue := "radar" |}) 2 stringStore)))
  = stringStore.
Proof.
  cbn zeta. apply (create_then_delete "radar" 2). vm_compute. reflexivity.
Defined.

Lemma record_kept_until_deleted_witness :
  let stringStore := storeAfter [Create (Some {| ReqValue := "radar" |}) 1] in
  let k := calculateSHA256 "radar" in
  let m := Create (Some {| ReqValue := "radar" |}) 2 in
  apply stringStore m !! k = Some (newRecord "radar" 1) \/
  (apply stringStore m !! k = None /\
   exists value, m = Delete value /\ calculateSHA256 value = k).
Proof.
  cbn zeta. apply (record_kept_until_deleted _ _ _ (newRecord "radar" 1)).
  vm_compute. reflexivity.
Defined.

Lemma getString_found_witness :
  exists created now,
    Create (Some {| ReqValue := created |}) now
      ∈ [Create (Some {| ReqValue := "radar" |}) 1; Delete "level"] /\
    newRecord "radar" 1 = newRecord created now /\
    calculateSHA256 created = calculateSHA256 "radar".
Proof.
  apply (getString_found [Create (Some {| ReqValue := "radar" |}) 1; Delete "level"]
                         "radar" (newRecord "radar" 1)).
  vm_compute. reflexivity.
Defined.

Lemma getAllStrings_distinct_witness :
  let ms := [Create (Some {| ReqValue := "radar" |}) 1;
             Create (Some {| ReqValue := "hello world" |}) 2;
             Create (Some {| ReqValue := "level" |}) 3] in
  let params := {| pIsPalindrome := Some true; pMinLength := None; pMaxLength := None;
                   pWordCount := None; pContainsCharacter := None |} in
  let resp := listResponse params (listAllRun params (storeAfter ms)) in
  NoDup (ID <$> dataOf resp) /\
  (forall a, a ∈ dataOf resp ->
             matchesFilters a params = true /\ storeAfter ms !! ID a = Some a) /\
  exists r, Payload resp = BList r /\ Count r = Z.of_nat (length (Data r)) /\
            Status resp = StatusOK.
Proof.
  cbn zeta. apply getAllStrings_distinct. apply listAllRun_admissible.
Defined.

Lemma filterByNaturalLanguage_spec_witness :
  let query := "palindromic strings" in
  let parsed : gmap string FilterValue := {["is_palindrome" := VBool true]} in
  let stringStore := storeAfter [Create (Some {| ReqValue := "radar" |}) 1;
                                 Create (Some {| ReqValue := "hello world" |}) 2] in
  let results := listAllRun (convertParsedFiltersToParams parsed) stringStore in
  let resp := JSON StatusOK
                (BList {| Data := results;
                          Count := Z.of_nat (length results);
                          FiltersApplied := ∅;
                          InterpretedQuery :=
                            Some {| Original := query; ParsedFilters := parsed |} |}) in
  match parseNaturalLanguageQuery query with
  | Err msg => Status resp = StatusBadRequest /\ dataOf resp = []
  | Ok parsedFilters =>
    let filterParams := convertParsedFiltersToParams parsedFilters in
    Status resp = StatusOK /\
    dataOf resp ≡ₚ filter (fun a => matchesFilters a filterParams = true)
                         (snd <$> map_to_list stringStore) /\
    StronglySorted (fun x y => CreatedAt x <= CreatedAt y) (dataOf resp) /\
    exists r, Payload resp = BList r /\
              Count r = Z.of_nat (length (Data r)) /\
              InterpretedQuery r
              = Some {| Original := query; ParsedFilters := parsedFilters |}
  end.
Proof.
  cbn zeta. apply filterByNaturalLanguage_spec.
  apply (filterRun_admissible "palindromic strings"); [discriminate|].
  vm_compute. reflexivity.
Defined.

Lemma contains_character_one_rune_witness :
  exists r, runes (ToLower "D") = [r] /\
            r ∈ runes (ToLower (Value (newRecord "Radar" 0))) /\
            r <> 32 /\ r <> 9 /\ r <> 10.
Proof.
  apply (contains_character_one_rune (newRecord "Radar" 0)
           {| pIsPalindrome := None; pMinLength := None; pMaxLength := None;
              pWordCount := None; pContainsCharacter := Some "D" |} "D").
  - reflexivity.
  - reflexivity.
  - vm_compute. reflexivity.
Defined.

Lemma parse_ascii_case_insensitive_witness :
  parseNaturalLanguageQuery (strings.lowerASCII "Palindromic STRINGS longer than 3")
  = parseNaturalLanguageQuery "Palindromic STRINGS longer than 3".
Proof.
  apply (parse_ascii_case_insensitive "Palindromic STRINGS longer than 3").
  reflexivity.
Defined.

Lemma checkPalindrome_ignores_spaces_witness :
  let ws := String " " (String "009"%char (String "013"%char EmptyString)) in
  checkPalindrome ("ra" +:+ ws +:+ "dar") = checkPalindrome ("ra" +:+ "dar") /\
  checkPalindrome (regexp.removeSpaceRuns ("ra" +:+ "dar"))
  = checkPalindrome ("ra" +:+ "dar").
Proof.
  cbn zeta. apply (checkPalindrome_ignores_spaces "ra" _ "dar"). reflexivity.
Defined.

Lemma checkPalindrome_ascii_witness :
  let s := "Never odd or even" in
  let letters := lowerByte <$> filter (fun c => c ∉ perlSpaces) (list_ascii_of_string s) in
  checkPalindrome s = true <-> letters = rev letters.
Proof.
  cbn zeta. apply (checkPalindrome_ascii "Never odd or even"). reflexivity.
Defined.

Lemma frequency_counts_witness :
  1 <= 2 <= Length (analyzeString "Hello") /\
  "l" ∉ [" "; String "009"%char EmptyString; String "010"%char EmptyString].
Proof.
  apply (frequency_counts "Hello" "l" 2). vm_compute. reflexivity.
Defined.

Lemma frequency_keys_lower_case_witness : ~ (65 <= byteZ "h" <= 90).
Proof.
  apply (frequency_keys_lower_case "Hello" "h" "h").
  - intros r Hr. unfold To_LowerCase, noCaseRanges, unicode.MaxASCII in *. lia.
  - vm_compute. eauto.
  - reflexivity.
Defined.
